(** * Dependency builder of en-parse ([src/relating.ts])

    A shallow embedding of the root identifier, the relationship matcher and
    the relationships builder, followed by the properties of the design
    document that they satisfy.

    Conventions of the embedding:
    - a JavaScript array is a [list]; [a[i]] is the lookup [a !! i], whose
      [None] stands for [undefined];
    - strings are compared with [=] (JavaScript [===] on strings);
    - the numbers of the program (positions, delays, distances, the iteration
      counter and the recursion limit) are integer-valued doubles, modelled
      by their value in [Z]; comparisons of doubles are exact, and the
      subtractions of the distance test, whose exact result need not be a
      double, are rounded as IEEE 754 prescribes ([roundDouble]);
    - a node object is a value.  The builder mutates only nodes that are
      still in the top-level array, and every node it attaches is removed
      from that array in the same step, so for an input made of distinct
      objects the value model and the object model agree. *)

From Stdlib Require Import ZArith String List Lia Btauto.
From stdpp Require Import base relations list strings.

Local Open Scope string_scope.
Local Open Scope list_scope.
Local Open Scope nat_scope.

(** ** Data model *)

(** [NodeInterface] (imported by the source from [./index]): the fields the
    dependency builder reads and writes. [label] is optional; [index] is the
    pair [[start, end]]. *)
Module Node.
#[local] Unset Elimination Schemes.
Inductive NodeInterface : Type := mk {
  type : string;
  tags : list string;
  tokens : list string;
  index : Z * Z;
  label : option string;
  left : list NodeInterface;
  right : list NodeInterface
}.
End Node.
Abbreviation NodeInterface := Node.NodeInterface.

(** One entry of the [relationships] table (imported from
    [./rules/relationships]); only its schema is used here. *)
Module Rel.
Record Relationship : Type := mk {
  left : list string;
  right : list string;
  leftTokens : list string;
  rightTokens : list string;
  direction : string;
  label : string;
  delay : Z;
  maxDistance : Z
}.
End Rel.
Abbreviation Relationship := Rel.Relationship.

Module MatchResult.
Record MatchResult : Type := mk {
  direction : string;
  label : string
}.
End MatchResult.
Abbreviation MatchResult := MatchResult.MatchResult.

(** Field updates performed by the source: [n.label = l],
    [n.right.push(c)] and [n.left.push(c)]. *)
Definition setLabel (n : NodeInterface) (l : string) : NodeInterface :=
  Node.mk (Node.type n) (Node.tags n) (Node.tokens n) (Node.index n)
          (Some l) (Node.left n) (Node.right n).

Definition pushRight (n c : NodeInterface) : NodeInterface :=
  Node.mk (Node.type n) (Node.tags n) (Node.tokens n) (Node.index n)
          (Node.label n) (Node.left n) (Node.right n ++ [c]).

Definition pushLeft (n c : NodeInterface) : NodeInterface :=
  Node.mk (Node.type n) (Node.tags n) (Node.tokens n) (Node.index n)
          (Node.label n) (Node.left n ++ [c]) (Node.right n).

(** [~a.indexOf(x)], respectively [a.indexOf(x) !== -1]. *)
Definition includes (a : list string) (x : string) : bool :=
  bool_decide (x ∈ a).

(** The same test on a possibly undefined value such as [node.tags[0]]:
    [undefined] is never found in an array of strings. *)
Definition includes_opt (a : list string) (x : option string) : bool :=
  match x with
  | Some s => includes a s
  | None => false
  end.

(** ** Numbers *)

(** The double nearest to an integer: 53 significant bits, ties to the even
    significand. Integers below 2^53 in absolute value are doubles. (The
    exponent is not bounded here: a magnitude of 2^1024 stands for Infinity,
    above every finite double as Infinity is.) *)
Definition roundDouble (z : Z) : Z :=
  let m := Z.abs z in
  let e := (Z.log2 m - 52)%Z in
  if (e <=? 0)%Z then z
  else
    let q := (m / 2 ^ e)%Z in
    let r := (m mod 2 ^ e)%Z in
    let half := (2 ^ (e - 1))%Z in
    let q' := if (r <? half)%Z then q
              else if (half <? r)%Z then (q + 1)%Z
              else if Z.even q then q else (q + 1)%Z in
    (Z.sgn z * (q' * 2 ^ e))%Z.

(** [a - b] on two integer-valued doubles. *)
Definition jsSub (a b : Z) : Z := roundDouble (a - b).

(** The integer is a finite double. *)
Definition isDouble (z : Z) : bool :=
  (roundDouble z =? z)%Z && (Z.abs z <? 2 ^ 1024)%Z.

(** ** Contractions *)

Definition contractions : list string :=
  ["'m"; "'s"; "'d"; "'ll"; "'re"; "'ve"].
Definition replacements : list string :=
  ["am"; "is"; "would"; "will"; "are"; "have"].

(** [a.indexOf(x)], with [None] for [-1]. *)
Fixpoint indexOf (a : list string) (x : string) : option nat :=
  match a with
  | [] => None
  | y :: a' => if bool_decide (y = x) then Some 0%nat
               else S <$> indexOf a' x
  end.

(** [deContract]: the two tables have the same length, so
    [replacements[ci]] is always defined; the default covers the lookup
    that cannot fail. *)
Definition deContract (token : string) : string :=
  match indexOf contractions token with
  | Some ci => default token (replacements !! ci)
  | None => token
  end.

(** [deContract(n.tokens[0])]: an [undefined] first token is not in the
    table and is returned as it is. *)
Definition firstToken (n : NodeInterface) : option string :=
  deContract <$> head (Node.tokens n).

(** A property read on a possibly undefined node, as in [nx2 && p(nx2)]:
    false when the node is [undefined]. *)
Definition on {A : Type} (o : option A) (p : A → bool) : bool :=
  match o with
  | Some x => p x
  | None => false
  end.

(** Truthiness of a possibly undefined node. *)
Definition truthy {A : Type} (o : option A) : bool := on o (λ _, true).

(** [a.length] used as a condition. *)
Definition nonEmpty (a : list string) : bool :=
  match a with
  | [] => false
  | _ :: _ => true
  end.

(** [findBy.label]. *)
Definition findBy_label (label : string) (nodes : list NodeInterface) : bool :=
  existsb (λ node, bool_decide (Node.label node = Some label)) nodes.

(** [findBy.type]. *)
Definition findBy_type (type : string) (nodes : list NodeInterface) : bool :=
  existsb (λ node, bool_decide (Node.type node = type)) nodes.

(** Result of running a loop of the builder: a value, the [TypeError]
    JavaScript raises when a property of [undefined] is read, or the
    exhaustion of the fuel that bounds the [while] loop of the model. *)
Inductive outcome (A : Type) : Type :=
| Done (a : A)
| TypeError
| OutOfFuel.
Arguments Done {A} a.
Arguments TypeError {A}.
Arguments OutOfFuel {A}.

Definition outcome_map {A B : Type} (f : A → B) (o : outcome A) : outcome B :=
  match o with
  | Done a => Done (f a)
  | TypeError => TypeError
  | OutOfFuel => OutOfFuel
  end.

Definition vbs : list string := ["VP"; "VB"; "VBN"].
Definition pa : list string := ["VBZ"; "VB"; "VBP"; "VBD"; "MD"; "VBN"].
Definition oe : list string :=
  ["be"; "have"; "do"; "will"; "shall"; "may"; "can"].

(** [node.tags[0]]. *)
Definition firstTag (n : NodeInterface) : option string := head (Node.tags n).

(** ** Trees and the predicates of the invariants *)

(** A node and everything below it, and the nodes reachable in a forest. *)
Fixpoint descendants (n : NodeInterface) : list NodeInterface :=
  n :: flat_map descendants (Node.left n)
    ++ flat_map descendants (Node.right n).

Definition reachable (nodes : list NodeInterface) : list NodeInterface :=
  flat_map descendants nodes.

Definition hasLabel (l : string) (n : NodeInterface) : bool :=
  bool_decide (Node.label n = Some l).

Definition isRoot (n : NodeInterface) : bool := hasLabel "ROOT" n.

(** Some reachable node has a node labelled ROOT among its children. *)
Definition rootAbsorbed (nodes : list NodeInterface) : bool :=
  existsb (λ n, existsb isRoot (Node.left n) || existsb isRoot (Node.right n))
          (reachable nodes).

(** Number of nodes of a list that carry the label [l]. *)
Definition countLabel (l : string) (nodes : list NodeInterface) : nat :=
  length (List.filter (hasLabel l) nodes).

(** Number of reachable nodes labelled ROOT. *)
Definition rootCount (nodes : list NodeInterface) : nat :=
  countLabel "ROOT" (reachable nodes).

(** Every reachable node has at most one left child labelled NSUBJ and at
    most one labelled NSUBJPASS. *)
Definition singleSubject (nodes : list NodeInterface) : bool :=
  forallb (λ n, (countLabel "NSUBJ" (Node.left n) <=? 1)%nat
                && (countLabel "NSUBJPASS" (Node.left n) <=? 1)%nat)
          (reachable nodes).

(** A node without its children: what identifies a top-level node while
    children are attached to it. *)
Definition stem (n : NodeInterface) : NodeInterface :=
  Node.mk (Node.type n) (Node.tags n) (Node.tokens n) (Node.index n)
          (Node.label n) [] [].

(** The top-level nodes labelled ROOT, in order, without their children. *)
Definition topRoots (nodes : list NodeInterface) : list NodeInterface :=
  stem <$> List.filter isRoot nodes.

(** A node whose first token is replaced by its expansion. *)
Definition expandFirst (n : NodeInterface) : NodeInterface :=
  Node.mk (Node.type n) (Node.tags n)
          (match Node.tokens n with
           | [] => []
           | t :: ts => deContract t :: ts
           end)
          (Node.index n) (Node.label n) (Node.left n) (Node.right n).

(** What the chunker puts into a node: its type, tags, tokens and
    position. *)
Definition core (n : NodeInterface)
  : string * list string * list string * (Z * Z) :=
  (Node.type n, Node.tags n, Node.tokens n, Node.index n).

(** A node with its label removed. *)
Definition unlabel (n : NodeInterface) : NodeInterface :=
  Node.mk (Node.type n) (Node.tags n) (Node.tokens n) (Node.index n)
          None (Node.left n) (Node.right n).

(** Every node that sits in a child list carries one of the given labels. *)
Definition childrenLabelled (labels : list string)
    (nodes : list NodeInterface) : bool :=
  forallb (λ n,
      forallb (λ c, includes_opt labels (Node.label c)) (Node.left n)
      && forallb (λ c, includes_opt labels (Node.label c)) (Node.right n))
    (reachable nodes).

(** ** Sample data for the examples *)

(** A node as the chunker delivers it: no label, no children. *)
Definition chunk (type tag token : string) (start end_ : Z) : NodeInterface :=
  Node.mk type [tag] [token] (start, end_) None [] [].

(** A rule with no constraint besides its direction and label. *)
Definition anyRule (direction label : string) : Relationship :=
  Rel.mk [] [] [] [] direction label (-1) (-1).

(** A conjugator that leaves present-tense forms as they are. *)
Definition plainConjugate (t : option string) : string := default "" t.

(** "the cat / sits" with the rule that attaches a noun phrase to the verb
    phrase on its right as its subject. *)
Definition theCat : NodeInterface := chunk "NP" "NN" "cat" 0 1.
Definition sits : NodeInterface := chunk "VP" "VBZ" "sits" 2 2.
Definition subjectRule : Relationship :=
  Rel.mk ["NP"] ["VP"] [] [] "->" "NSUBJ" (-1) (-1).

(** "they / have / it / done": the verb phrase "have" is followed by a noun
    phrase and then by a participle. *)
Definition theyNode : NodeInterface := chunk "NP" "PRP" "they" 0 0.
Definition haveNode : NodeInterface := chunk "VP" "VBP" "have" 1 1.
Definition itNode : NodeInterface := chunk "NP" "PRP" "it" 2 2.
Definition doneNode : NodeInterface := chunk "VBN" "VBN" "done" 3 3.

(** A verb at position 0 followed by a modal and a verb. *)
Definition doFirst : NodeInterface := chunk "VB" "VB" "do" 0 0.
Definition canSecond : NodeInterface := chunk "MD" "MD" "can" 1 1.
Definition goThird : NodeInterface := chunk "VB" "VB" "go" 2 2.

(** A verb away from position 0 followed by a modal and a verb. *)
Definition dogsNode : NodeInterface := chunk "NP" "NNS" "dogs" 0 0.
Definition doSecond : NodeInterface := chunk "VB" "VB" "do" 1 1.
Definition canThird : NodeInterface := chunk "MD" "MD" "can" 2 2.
Definition goFourth : NodeInterface := chunk "VB" "VB" "go" 3 3.

(** Two nodes three positions apart and a rule that allows no gap. *)
Definition spanLeft : NodeInterface := chunk "NP" "NN" "cat" 0 1.
Definition spanRight : NodeInterface := chunk "NP" "NN" "mat" 3 4.
Definition adjacentRule : Relationship :=
  Rel.mk [] [] [] [] "<-" "DEP" (-1) 0.

(** Two nodes whose positions are doubles but whose distance is not: the
    exact gap is 2^53, one more than the largest distance the rule allows. *)
Definition farLeft : NodeInterface := chunk "NP" "NN" "cat" (-3) (-2).
Definition farRight : NodeInterface :=
  chunk "NP" "NN" "mat" 9007199254740991 9007199254740991.
Definition wideRule : Relationship :=
  Rel.mk [] [] [] [] "<-" "DEP" (-1) 9007199254740991.

(** A noun phrase that arrives with the label ROOT already set. *)
Definition labelledCat : NodeInterface := setLabel theCat "ROOT".

Section Relating.

(** The conjugation capability of [en-inflectors]:
    [conjugate t] is [new Inflectors(t).conjugate("VBP")], for the
    JavaScript value [t] it is given ([None] is [undefined], the first token
    of an empty token array).  The design document requires it to be total. *)
Variable conjugate : option string → string.

(** The rule table [relationships]. *)
Variable relationships : list Relationship.

(** [new Inflectors(deContract(n.tokens[0])).conjugate("VBP")]. *)
Definition canonical (n : NodeInterface) : string :=
  conjugate (firstToken n).

(** ** Root identifier *)

(** The body of the loop of [identifyRoot] for a candidate verb [node]
    followed by [nx1], [nx2], [nx3]: the source line of the [continue]
    statement that is reached, if any (lines 52-67). *)
Definition continueLine (node : NodeInterface)
    (nx1 nx2 nx3 : option NodeInterface) : option nat :=
  match nx1 with
  | Some n1 =>
    if includes_opt pa (firstTag node) then
      if includes vbs (Node.type n1) then Some 54%nat
      else if bool_decide (firstTag n1 = Some "RB") && truthy nx2 then
        if on nx2 (λ n2, includes vbs (Node.type n2)) then Some 57%nat
        else if on nx3 (λ n3,
                  on nx2 (λ n2, bool_decide (Node.type n2 = "NP"))
                  && includes vbs (Node.type n3)) then Some 58%nat
        else None
      else if truthy nx2 && (fst (Node.index node) =? 0)%Z then
        if bool_decide (Node.type n1 = "NP")
           && on nx2 (λ n2, includes vbs (Node.type n2)) then Some 63%nat
        else if on nx3 (λ n3,
                  bool_decide (Node.type n1 = "NP")
                  && on nx2 (λ n2, bool_decide (firstTag n2 = Some "RB"))
                  && includes vbs (Node.type n3)) then Some 64%nat
        else None
      else if on nx2 (λ n2,
                includes oe (canonical n1)
                && includes vbs (Node.type n2)) then Some 66%nat
      else None
    else None
  | None => None
  end.

(** The candidate is passed over as an auxiliary. *)
Definition isAuxiliary (node : NodeInterface)
    (nx1 nx2 nx3 : option NodeInterface) : bool :=
  bool_decide (is_Some (continueLine node nx1 nx2 nx3)).

(** The [for] loop of [identifyRoot], from index [i], with [k] bounding the
    number of remaining iterations; [nodes !! i = None] is [i >= nodes.length]. *)
Fixpoint rootLoop (k i : nat) (nodes : list NodeInterface)
  : list NodeInterface :=
  match k with
  | O => nodes
  | S k' =>
    match nodes !! i with
    | None => nodes
    | Some node =>
      if negb (includes vbs (Node.type node)) then rootLoop k' (S i) nodes
      else if isAuxiliary node (nodes !! (i + 1)%nat) (nodes !! (i + 2)%nat)
                          (nodes !! (i + 3)%nat)
      then rootLoop k' (S i) nodes
      else <[i := setLabel node "ROOT"]> nodes
    end
  end.

Definition identifyRoot (nodes : list NodeInterface) : list NodeInterface :=
  rootLoop (length nodes) 0 nodes.

(** ** Relationship matcher *)

(** The chain of conditions of lines 143-162 for one rule: [true] when one
    of the [continue] statements is reached. *)
Definition skips (rel : Relationship) (left right : NodeInterface)
    (iteration : Z) : bool :=
  if nonEmpty (Rel.left rel)
     && negb (includes (Rel.left rel) (Node.type left)) then true
  else if nonEmpty (Rel.right rel)
     && negb (includes (Rel.right rel) (Node.type right)) then true
  else if negb (Rel.delay rel =? -1)%Z
     && (iteration <=? Rel.delay rel)%Z then true
  else if negb (Rel.maxDistance rel =? -1)%Z
     && (jsSub (jsSub (fst (Node.index right)) (snd (Node.index left))) 1
           >? Rel.maxDistance rel)%Z then true
  else if bool_decide (Rel.direction rel = "<-")
     && bool_decide (Node.label right = Some "ROOT") then true
  else if bool_decide (Rel.direction rel = "->")
     && bool_decide (Node.label left = Some "ROOT") then true
  else if bool_decide (Rel.label rel = "NSUBJ")
     && bool_decide (Rel.direction rel = "->")
     && findBy_label "NSUBJ" (Node.left right) then true
  else if bool_decide (Rel.label rel = "NSUBJPASS")
     && bool_decide (Rel.direction rel = "->")
     && findBy_label "NSUBJPASS" (Node.left right) then true
  else if nonEmpty (Rel.leftTokens rel)
     && negb (includes (Rel.leftTokens rel) (canonical left)) then true
  else if nonEmpty (Rel.rightTokens rel)
     && negb (includes (Rel.rightTokens rel) (canonical right)) then true
  else false.

(** The loop of [matchNodes] over the rules not yet visited: the first rule
    that reaches the final [else] is kept and the loop is left. *)
Fixpoint matchLoop (rels : list Relationship) (left right : NodeInterface)
    (iteration : Z) : option Relationship :=
  match rels with
  | [] => None
  | rel :: rels' =>
    if skips rel left right iteration
    then matchLoop rels' left right iteration
    else Some rel
  end.

(** [matchNodes]; [None] is the result [false]. *)
Definition matchNodes (left right : NodeInterface) (iteration : Z)
  : option MatchResult :=
  match matchLoop relationships left right iteration with
  | None => None
  | Some match_ =>
    Some (MatchResult.mk (Rel.direction match_) (Rel.label match_))
  end.

(** ** Relationships builder *)

(** The body of the inner [for] loop at position [l]. Reading [nodes[l]] or
    [nodes[l + 1]] past the end gives [undefined], which is handed to the
    matcher; the model stops there with [TypeError], and [forLoop_total]
    shows that the scan never reads past the end. [splice(i, 1)] is
    [delete i]. *)
Definition absorb (l : nat) (iteration : Z) (nodes : list NodeInterface)
  : outcome (list NodeInterface) :=
  match nodes !! l, nodes !! (l + 1)%nat with
  | Some leftNode, Some rightNode =>
    match matchNodes leftNode rightNode iteration with
    | None => Done nodes
    | Some match_ =>
      if bool_decide (MatchResult.direction match_ = "<-") then
        let rightNode := setLabel rightNode (MatchResult.label match_) in
        Done (delete (l + 1)%nat (<[l := pushRight leftNode rightNode]> nodes))
      else if bool_decide (MatchResult.direction match_ = "->") then
        let leftNode := setLabel leftNode (MatchResult.label match_) in
        Done (delete l (<[(l + 1)%nat := pushLeft rightNode leftNode]> nodes))
      else Done nodes
    end
  | _, _ => TypeError
  end.

(** [for (var l = ...; l >= 0; l--)] with [k = l + 1] positions left. *)
Fixpoint forLoop (k : nat) (iteration : Z) (nodes : list NodeInterface)
  : outcome (list NodeInterface) :=
  match k with
  | O => Done nodes
  | S l =>
    match absorb l iteration nodes with
    | Done nodes' => forLoop l iteration nodes'
    | TypeError => TypeError
    | OutOfFuel => OutOfFuel
    end
  end.

(** One pass: the scan starts at [l = nodes.length - 2]. *)
Definition pass (iteration : Z) (nodes : list NodeInterface)
  : outcome (list NodeInterface) :=
  forLoop (length nodes - 1) iteration nodes.

(** The [while] loop; the result carries the final value of [iteration],
    which is the number of passes performed. *)
Fixpoint whileLoop (fuel : nat) (recursionLimit iteration : Z)
    (nodes : list NodeInterface) : outcome (Z * list NodeInterface) :=
  if (iteration <? recursionLimit)%Z && (1 <? length nodes)%nat then
    match fuel with
    | O => OutOfFuel
    | S fuel' =>
      match pass iteration nodes with
      | Done nodes' => whileLoop fuel' recursionLimit (iteration + 1)%Z nodes'
      | TypeError => TypeError
      | OutOfFuel => OutOfFuel
      end
    end
  else Done (iteration, nodes).

Definition buildRelationships (fuel : nat) (nodes : list NodeInterface)
    (recursionLimit : Z) : outcome (list NodeInterface) :=
  outcome_map snd (whileLoop fuel recursionLimit 0 nodes).

(** The exported function. *)
Definition relating (fuel : nat) (nodes : list NodeInterface)
    (recursionLimit : Z) : outcome (list NodeInterface) :=
  let nodes := identifyRoot nodes in
  buildRelationships fuel nodes recursionLimit.

(** One absorption, as a relation between the top-level array before and
    after it: two neighbours are matched and one of them becomes a child of
    the other (lines 100-111). *)
Inductive absorbs : list NodeInterface → list NodeInterface → Prop :=
| absorbs_right pre leftNode rightNode post match_ iteration :
    matchNodes leftNode rightNode iteration = Some match_ →
    MatchResult.direction match_ = "<-" →
    absorbs (pre ++ leftNode :: rightNode :: post)
            (pre ++ pushRight leftNode
                      (setLabel rightNode (MatchResult.label match_)) :: post)
| absorbs_left pre leftNode rightNode post match_ iteration :
    matchNodes leftNode rightNode iteration = Some match_ →
    MatchResult.direction match_ = "->" →
    absorbs (pre ++ leftNode :: rightNode :: post)
            (pre ++ pushLeft rightNode
                      (setLabel leftNode (MatchResult.label match_)) :: post).

(** ** The matcher and the identifier as the design document words them *)

Definition rejectsTypeSets (rule : Relationship) (left right : NodeInterface)
  : bool :=
  (nonEmpty (Rel.left rule) && negb (includes (Rel.left rule) (Node.type left)))
  || (nonEmpty (Rel.right rule)
      && negb (includes (Rel.right rule) (Node.type right))).

Definition rejectsDelay (rule : Relationship) (iteration : Z) : bool :=
  negb (Rel.delay rule =? -1)%Z && (iteration <=? Rel.delay rule)%Z.

(** The gap between the two spans, [right.index[0] - left.index[1] - 1],
    as the program's arithmetic gives it. *)
Definition gap (left right : NodeInterface) : Z :=
  jsSub (jsSub (fst (Node.index right)) (snd (Node.index left))) 1.

Definition rejectsDistance (rule : Relationship) (left right : NodeInterface)
  : bool :=
  negb (Rel.maxDistance rule =? -1)%Z
  && (gap left right >? Rel.maxDistance rule)%Z.

Definition rejectsRoot (rule : Relationship) (left right : NodeInterface)
  : bool :=
  (bool_decide (Rel.direction rule = "<-") && isRoot right)
  || (bool_decide (Rel.direction rule = "->") && isRoot left).

Definition rejectsSubject (rule : Relationship) (right : NodeInterface)
  : bool :=
  bool_decide (Rel.direction rule = "->")
  && ((bool_decide (Rel.label rule = "NSUBJ")
       && (0 <? countLabel "NSUBJ" (Node.left right))%nat)
      || (bool_decide (Rel.label rule = "NSUBJPASS")
          && (0 <? countLabel "NSUBJPASS" (Node.left right))%nat)).

Definition rejectsTokens (rule : Relationship) (left right : NodeInterface)
  : bool :=
  (nonEmpty (Rel.leftTokens rule)
   && negb (includes (Rel.leftTokens rule) (canonical left)))
  || (nonEmpty (Rel.rightTokens rule)
      && negb (includes (Rel.rightTokens rule) (canonical right))).

(** All the conditions of a rule pass. *)
Definition satisfied (rule : Relationship) (left right : NodeInterface)
    (iteration : Z) : bool :=
  negb (rejectsTypeSets rule left right)
  && negb (rejectsDelay rule iteration)
  && negb (rejectsDistance rule left right)
  && negb (rejectsRoot rule left right)
  && negb (rejectsSubject rule right)
  && negb (rejectsTokens rule left right).

(** The node at position [i] is a candidate verb that no lookahead pattern
    makes an auxiliary. *)
Definition qualifies (nodes : list NodeInterface) (i : nat) : bool :=
  on (nodes !! i) (λ node,
    includes vbs (Node.type node)
    && negb (isAuxiliary node (nodes !! (i + 1)%nat) (nodes !! (i + 2)%nat)
                         (nodes !! (i + 3)%nat))).

(** ** Auxiliary facts *)

Lemma includes_true a x : includes a x = true ↔ x ∈ a.
Proof. unfold includes. apply bool_decide_eq_true. Qed.

Lemma includes_false a x : includes a x = false ↔ x ∉ a.
Proof. unfold includes. apply bool_decide_eq_false. Qed.

Lemma findBy_label_count l nodes :
  findBy_label l nodes = (0 <? countLabel l nodes)%nat.
Proof.
  unfold findBy_label, countLabel, hasLabel.
  induction nodes as [|n nodes IH]; simpl; [reflexivity|].
  destruct (bool_decide (Node.label n = Some l)); simpl; auto.
Qed.

(** Below 2^53 every integer is a double: nothing is rounded. *)
Lemma roundDouble_small z : (Z.abs z < 2 ^ 53)%Z → roundDouble z = z.
Proof.
  intros Hz. unfold roundDouble.
  assert (H : (Z.log2 (Z.abs z) - 52 <=? 0)%Z = true).
  { apply Z.leb_le.
    destruct (Z.eq_dec (Z.abs z) 0%Z) as [->|Hne]; [simpl; lia|].
    assert (Z.log2 (Z.abs z) < 53)%Z by (apply Z.log2_lt_pow2; lia). lia. }
  by rewrite H.
Qed.

(** For positions below 2^52 in absolute value the program computes the
    exact gap. *)
Lemma gap_exact left right :
  (Z.abs (fst (Node.index right)) < 2 ^ 52)%Z →
  (Z.abs (snd (Node.index left)) < 2 ^ 52)%Z →
  gap left right
  = (fst (Node.index right) - snd (Node.index left) - 1)%Z.
Proof.
  intros Hr Hl. unfold gap, jsSub.
  change (2 ^ 52)%Z with 4503599627370496%Z in *.
  rewrite (roundDouble_small (_ - snd _));
    [|change (2 ^ 53)%Z with 9007199254740992%Z; lia].
  apply roundDouble_small. change (2 ^ 53)%Z with 9007199254740992%Z. lia.
Qed.

(** Replace every elementary test of the goal by a boolean variable. *)
Ltac abstract_tests :=
  repeat match goal with
  | |- context [bool_decide ?P] => generalize (bool_decide P); intro
  | |- context [includes ?a ?x] => generalize (includes a x); intro
  | |- context [nonEmpty ?a] => generalize (nonEmpty a); intro
  | |- context [Z.eqb ?a ?b] => generalize (Z.eqb a b); intro
  | |- context [Z.leb ?a ?b] => generalize (Z.leb a b); intro
  | |- context [Z.gtb ?a ?b] => generalize (Z.gtb a b); intro
  | |- context [Nat.ltb ?a ?b] => generalize (Nat.ltb a b); intro
  end.

(** ** The matcher *)

(** The chain of [else if] of the source rejects exactly the rules that
    fail one of the listed conditions. *)
Lemma skips_satisfied rel left right iteration :
  skips rel left right iteration = negb (satisfied rel left right iteration).
Proof.
  unfold skips, satisfied, rejectsTypeSets, rejectsDelay, rejectsDistance,
    rejectsRoot, rejectsSubject, rejectsTokens, gap, isRoot, hasLabel.
  rewrite !findBy_label_count.
  abstract_tests.
  btauto.
Qed.

Lemma matchLoop_first rels left right iteration :
  match matchLoop rels left right iteration with
  | Some rel =>
      ∃ pre post, rels = pre ++ rel :: post
        ∧ Forall (λ r, skips r left right iteration = true) pre
        ∧ skips rel left right iteration = false
  | None => Forall (λ r, skips r left right iteration = true) rels
  end.
Proof.
  induction rels as [|r rels IH]; simpl; [constructor|].
  destruct (skips r left right iteration) eqn:Hr.
  - destruct (matchLoop rels left right iteration) as [rel|].
    + destruct IH as (pre & post & -> & Hpre & Hrel).
      exists (r :: pre), post. repeat split; auto.
    + constructor; auto.
  - exists [], rels. repeat split; auto.
Qed.

Lemma matchLoop_Some rels left right iteration rel :
  matchLoop rels left right iteration = Some rel →
  rel ∈ rels ∧ skips rel left right iteration = false.
Proof.
  intros H. pose proof (matchLoop_first rels left right iteration) as Hf.
  rewrite H in Hf. destruct Hf as (pre & post & -> & _ & Hrel).
  split; [|exact Hrel]. apply elem_of_app. right. apply elem_of_cons. auto.
Qed.

Lemma matchNodes_Some left right iteration m :
  matchNodes left right iteration = Some m →
  ∃ rel, rel ∈ relationships
    ∧ skips rel left right iteration = false
    ∧ MatchResult.direction m = Rel.direction rel
    ∧ MatchResult.label m = Rel.label rel.
Proof.
  unfold matchNodes. intros H.
  destruct (matchLoop relationships left right iteration) as [rel|] eqn:Hl;
    [|discriminate].
  apply matchLoop_Some in Hl as [Hin Hs]. exists rel.
  injection H as <-. simpl. auto.
Qed.

(** What a rule that is not skipped guarantees, condition by condition. *)
Lemma skips_false rel left right iteration :
  skips rel left right iteration = false →
  (Rel.direction rel = "<-" → Node.label right ≠ Some "ROOT")
  ∧ (Rel.direction rel = "->" → Node.label left ≠ Some "ROOT")
  ∧ (Rel.direction rel = "->" → Rel.label rel = "NSUBJ" →
       countLabel "NSUBJ" (Node.left right) = 0%nat)
  ∧ (Rel.direction rel = "->" → Rel.label rel = "NSUBJPASS" →
       countLabel "NSUBJPASS" (Node.left right) = 0%nat).
Proof.
  rewrite skips_satisfied. intros H. apply negb_false_iff in H.
  unfold satisfied in H. repeat (apply andb_prop in H as [H ?]).
  repeat match goal with
  | H : negb _ = true |- _ => apply negb_true_iff in H
  end.
  unfold rejectsRoot, rejectsSubject, isRoot, hasLabel in *.
  repeat split; intros.
  - intros Hr. rewrite !bool_decide_eq_true_2 in * by assumption.
    simpl in *. discriminate.
  - intros Hr.
    rewrite (bool_decide_eq_true_2 (Rel.direction rel = "->")) in * by assumption.
    rewrite (bool_decide_eq_true_2 (Node.label left = _)) in * by assumption.
    rewrite orb_true_r in *. discriminate.
  - rewrite !bool_decide_eq_true_2 in * by assumption. simpl in *.
    destruct (countLabel "NSUBJ" (Node.left right)); [reflexivity|].
    simpl in *. discriminate.
  - rewrite (bool_decide_eq_true_2 (Rel.direction rel = "->")) in * by assumption.
    rewrite (bool_decide_eq_true_2 (Rel.label rel = "NSUBJPASS")) in * by assumption.
    simpl in *.
    destruct (countLabel "NSUBJPASS" (Node.left right)); [reflexivity|].
    rewrite orb_true_r in *. discriminate.
Qed.

(** Root protection, for every rule and every table. *)
Lemma skips_root_protection rel left right iteration :
  (Rel.direction rel = "<-" ∧ Node.label right = Some "ROOT")
  ∨ (Rel.direction rel = "->" ∧ Node.label left = Some "ROOT") →
  skips rel left right iteration = true.
Proof.
  intros Hc. destruct (skips rel left right iteration) eqn:Hs; [reflexivity|].
  apply skips_false in Hs as (H1 & H2 & _).
  destruct Hc as [[Hd Hl]|[Hd Hl]]; [by apply H1 in Hd|by apply H2 in Hd].
Qed.

Lemma matchNodes_root_protection left right iteration m :
  matchNodes left right iteration = Some m →
  (MatchResult.direction m = "<-" → Node.label right ≠ Some "ROOT")
  ∧ (MatchResult.direction m = "->" → Node.label left ≠ Some "ROOT").
Proof.
  intros Hm. apply matchNodes_Some in Hm as (rel & _ & Hs & -> & _).
  apply skips_false in Hs as (H1 & H2 & _). by split.
Qed.

(** Duplicate-subject protection, for every rule and every table. *)
Lemma skips_duplicate_subject rel left right iteration :
  Rel.direction rel = "->" →
  Rel.label rel = "NSUBJ" ∨ Rel.label rel = "NSUBJPASS" →
  0 < countLabel (Rel.label rel) (Node.left right) →
  skips rel left right iteration = true.
Proof.
  intros Hd Hl Hc.
  destruct (skips rel left right iteration) eqn:Hs; [reflexivity|].
  apply skips_false in Hs as (_ & _ & H1 & H2).
  destruct Hl as [Hl|Hl]; rewrite Hl in Hc;
    [rewrite (H1 Hd Hl) in Hc|rewrite (H2 Hd Hl) in Hc]; lia.
Qed.


(** C6 (in the arithmetic of the program). A rule whose [maxDistance] is
    not -1 is rejected for every pair whose gap
    [right.index[0] - left.index[1] - 1], as the program computes it,
    exceeds it, whatever the types, the iteration and the other fields are.
    The computed gap is the exact one when both positions are below 2^52 in
    absolute value, so there the rule is rejected whenever the exact gap
    exceeds [maxDistance]; in particular a rule with [maxDistance = 0] is
    rejected for a left node spanning [0,1] and a right node spanning
    [3,4].  The matcher never answers with such a rule. *)
Theorem maxDistance_rejects rel left right iteration :
  Rel.maxDistance rel ≠ (-1)%Z →
  (jsSub (jsSub (fst (Node.index right)) (snd (Node.index left))) 1
     > Rel.maxDistance rel)%Z
  ∨ ((Z.abs (fst (Node.index right)) < 2 ^ 52)%Z
     ∧ (Z.abs (snd (Node.index left)) < 2 ^ 52)%Z
     ∧ (fst (Node.index right) - snd (Node.index left) - 1
          > Rel.maxDistance rel)%Z)
  ∨ (Rel.maxDistance rel = 0%Z ∧ Node.index left = (0, 1)%Z
     ∧ Node.index right = (3, 4)%Z) →
  skips rel left right iteration = true
  ∧ satisfied rel left right iteration = false
  ∧ matchLoop relationships left right iteration ≠ Some rel.
Proof.
  intros Hne Hgap.
  assert (Hs : skips rel left right iteration = true).
  { assert (Hgt : (gap left right >? Rel.maxDistance rel)%Z = true).
    { apply Z.gtb_gt.
      destruct Hgap as [Hgap|[(Hr & Hl & Hgap)|(H0 & Hl & Hr)]].
      - exact Hgap.
      - by rewrite (gap_exact left right Hr Hl).
      - unfold gap. rewrite H0, Hl, Hr. reflexivity. }
    assert (Hm : (Rel.maxDistance rel =? -1)%Z = false) by by apply Z.eqb_neq.
    unfold gap in Hgt. unfold skips. rewrite Hgt, Hm. simpl.
    repeat match goal with
    | |- (if ?c then true else _) = true => destruct c; [reflexivity|]
    end.
    reflexivity. }
  split; [exact Hs|]. split.
  - rewrite skips_satisfied in Hs. by apply negb_true_iff in Hs.
  - intros Hm. apply matchLoop_Some in Hm as [_ Hm]. congruence.
Qed.

(** ** The root identifier *)

Lemma qualifies_ge nodes j : length nodes ≤ j → qualifies nodes j = false.
Proof.
  intros H. unfold qualifies. by rewrite (lookup_ge_None_2 nodes j H).
Qed.

(** The loop stops at the first position that qualifies, and marks it. *)
Lemma rootLoop_cases k i nodes :
  length nodes ≤ i + k →
  (rootLoop k i nodes = nodes ∧ ∀ j, i ≤ j → qualifies nodes j = false)
  ∨ ∃ j node, i ≤ j ∧ nodes !! j = Some node
      ∧ qualifies nodes j = true
      ∧ (∀ j', i ≤ j' → j' < j → qualifies nodes j' = false)
      ∧ rootLoop k i nodes = <[j := setLabel node "ROOT"]> nodes.
Proof.
  revert i. induction k as [|k IH]; intros i Hlen; simpl.
  - left. split; [reflexivity|]. intros j Hj. apply qualifies_ge. lia.
  - destruct (nodes !! i) as [node|] eqn:Hi.
    + assert (Hstep : qualifies nodes i = false →
        (rootLoop k (S i) nodes = nodes
           ∧ ∀ j, i ≤ j → qualifies nodes j = false)
        ∨ ∃ j node0, i ≤ j ∧ nodes !! j = Some node0
            ∧ qualifies nodes j = true
            ∧ (∀ j', i ≤ j' → j' < j → qualifies nodes j' = false)
            ∧ rootLoop k (S i) nodes = <[j := setLabel node0 "ROOT"]> nodes).
      { intros Hq. destruct (IH (S i)) as [[He Hn]|(j & n0 & Hj & Hl & Hqj & Hb & He)];
          [lia| |].
        - left. split; [exact He|]. intros j Hj.
          destruct (decide (j = i)) as [->|]; [exact Hq|]. apply Hn. lia.
        - right. exists j, n0. repeat split; auto; [lia|].
          intros j' H1 H2. destruct (decide (j' = i)) as [->|]; [exact Hq|].
          apply Hb; lia. }
      assert (Hqi : qualifies nodes i =
                includes vbs (Node.type node)
                && negb (isAuxiliary node (nodes !! (i + 1)%nat)
                           (nodes !! (i + 2)%nat) (nodes !! (i + 3)%nat))).
      { unfold qualifies. by rewrite Hi. }
      destruct (includes vbs (Node.type node)); simpl in *; [|auto].
      destruct (isAuxiliary node _ _ _); simpl in *; [auto|].
      right. exists i, node. repeat split; auto. intros; lia.
    + left. split; [reflexivity|]. intros j Hj. apply qualifies_ge.
      apply lookup_ge_None_1 in Hi. lia.
Qed.

Lemma identifyRoot_cases nodes :
  (identifyRoot nodes = nodes ∧ ∀ j, qualifies nodes j = false)
  ∨ ∃ j node, nodes !! j = Some node
      ∧ qualifies nodes j = true
      ∧ (∀ j', j' < j → qualifies nodes j' = false)
      ∧ identifyRoot nodes = <[j := setLabel node "ROOT"]> nodes.
Proof.
  unfold identifyRoot.
  destruct (rootLoop_cases (length nodes) 0 nodes)
    as [[He Hn]|(j & n0 & Hj & Hl & Hqj & Hb & He)]; [lia| |].
  - left. split; [exact He|]. intros j. apply Hn. lia.
  - right. exists j, n0. repeat split; auto. intros j' H. apply Hb; lia.
Qed.

Lemma identifyRoot_length nodes : length (identifyRoot nodes) = length nodes.
Proof.
  destruct (identifyRoot_cases nodes) as [[-> _]|(j & n & _ & _ & _ & ->)];
    [reflexivity|]. apply length_insert.
Qed.

(** C3 (as the code has it). A candidate verb is passed over by the last
    lookahead pattern (the [continue] of line 66) exactly when its first tag
    is a possible-auxiliary tag, the next node exists, is not a candidate
    verb and does not have RB as first tag, the candidate does not start at
    position 0, the node two positions ahead exists and is a candidate verb,
    and the first token of the NEXT node, expanded and conjugated to the
    present tense, is one of be, have, do, will, shall, may, can. *)
Theorem continueLine_last_pattern node nx1 nx2 nx3 :
  continueLine node nx1 nx2 nx3 = Some 66%nat ↔
  ∃ n1 n2, nx1 = Some n1 ∧ nx2 = Some n2
    ∧ includes_opt pa (firstTag node) = true
    ∧ includes vbs (Node.type n1) = false
    ∧ firstTag n1 ≠ Some "RB"
    ∧ fst (Node.index node) ≠ 0%Z
    ∧ includes oe (canonical n1) = true
    ∧ includes vbs (Node.type n2) = true.
Proof.
  unfold continueLine. split.
  - intros H. destruct nx1 as [n1|]; [|discriminate].
    destruct (includes_opt pa (firstTag node)); [|discriminate].
    destruct (includes vbs (Node.type n1)) eqn:Hv1; [discriminate|].
    destruct nx2 as [n2|]; simpl in H.
    + rewrite andb_true_r in H. case_bool_decide as Hrb.
      { repeat match type of H with
        | (if ?c then _ else _) = _ => destruct c; try discriminate
        end. }
      destruct (Z.eqb_spec (fst (Node.index node)) 0) as [H0|H0].
      { repeat match type of H with
        | (if ?c then _ else _) = _ => destruct c; try discriminate
        end. }
      destruct (includes oe (canonical n1)) eqn:Hoe; simpl in H;
        [|discriminate].
      destruct (includes vbs (Node.type n2)) eqn:Hv2; simpl in H;
        [|discriminate].
      exists n1, n2. repeat split; auto.
    + rewrite andb_false_r in H. discriminate.
  - intros (n1 & n2 & -> & -> & Hpa & Hv1 & Hrb & H0 & Hoe & Hv2).
    rewrite Hpa, Hv1. simpl.
    rewrite (bool_decide_eq_false_2 _ Hrb). simpl.
    destruct (Z.eqb_spec (fst (Node.index node)) 0) as [?|_]; [done|].
    by rewrite Hoe, Hv2.
Qed.

(** C10. When the identifier leaves every node before the last one
    without the ROOT label and the last node has a candidate-verb type, the
    last node is the one it marks, whatever its first tag is: no lookahead
    pattern applies without a following node. *)
Theorem last_candidate_is_root pre last :
  includes vbs (Node.type last) = true →
  Forall (λ n, Node.label n ≠ Some "ROOT")
         (take (length pre) (identifyRoot (pre ++ [last]))) →
  identifyRoot (pre ++ [last]) = pre ++ [setLabel last "ROOT"].
Proof.
  intros Hv Hpre.
  assert (Hlast : (pre ++ [last]) !! length pre = Some last).
  { rewrite lookup_app_r by lia. by rewrite Nat.sub_diag. }
  assert (Hq : qualifies (pre ++ [last]) (length pre) = true).
  { unfold qualifies. rewrite Hlast. simpl. rewrite Hv. simpl.
    rewrite (lookup_ge_None_2 (pre ++ [last]) (length pre + 1));
      [reflexivity|]. rewrite length_app. simpl. lia. }
  destruct (identifyRoot_cases (pre ++ [last]))
    as [[_ Hn]|(j & node & Hl & Hqj & Hb & He)].
  - rewrite Hn in Hq. discriminate.
  - destruct (Nat.lt_trichotomy j (length pre)) as [Hj|[->|Hj]].
    + exfalso. rewrite He in Hpre.
      rewrite Forall_lookup in Hpre.
      apply (Hpre j (setLabel node "ROOT")); [|reflexivity].
      rewrite lookup_take_lt by lia.
      apply list_lookup_insert_eq. by eapply lookup_lt_Some.
    + rewrite Hlast in Hl. injection Hl as <-. rewrite He.
      rewrite insert_app_r_alt by lia. by rewrite Nat.sub_diag.
    + rewrite Hb in Hq by lia. discriminate.
Qed.

(** ** The relationships builder *)

Lemma splice_right {A} (pre : list A) x y post z :
  delete (length pre + 1) (<[length pre := z]> (pre ++ x :: y :: post))
  = pre ++ z :: post.
Proof. induction pre as [|a pre IH]; simpl; [reflexivity|]. f_equal. exact IH. Qed.

Lemma splice_left {A} (pre : list A) x y post z :
  delete (length pre) (<[length pre + 1 := z]> (pre ++ x :: y :: post))
  = pre ++ z :: post.
Proof. induction pre as [|a pre IH]; simpl; [reflexivity|]. f_equal. exact IH. Qed.

Lemma neighbours {A} (l : list A) i x y :
  l !! i = Some x → l !! (i + 1) = Some y →
  l = take i l ++ x :: y :: drop (i + 2) l ∧ length (take i l) = i.
Proof.
  intros Hx Hy. split.
  - rewrite <- (take_drop_middle l i x Hx) at 1. f_equal. f_equal.
    rewrite <- (take_drop_middle l (i + 1) y Hy) at 1.
    rewrite drop_app_length'; [|rewrite length_take; apply lookup_lt_Some in Hy; lia].
    f_equal. f_equal. lia.
  - rewrite length_take. apply lookup_lt_Some in Hx. lia.
Qed.

(** The body of the scan either leaves the array as it is or performs one
    absorption. *)
Lemma absorb_Done l iteration nodes nodes' :
  absorb l iteration nodes = Done nodes' →
  nodes' = nodes ∨ absorbs nodes nodes'.
Proof.
  unfold absorb. intros H.
  destruct (nodes !! l) as [L|] eqn:HL; [|discriminate].
  destruct (nodes !! (l + 1)) as [R|] eqn:HR; [|discriminate].
  destruct (matchNodes L R iteration) as [m|] eqn:Hm;
    [|injection H as <-; by left].
  destruct (neighbours nodes l L R HL HR) as [Hn Hlen].
  remember (take l nodes) as pre eqn:Hpre.
  remember (drop (l + 2) nodes) as post eqn:Hpost.
  clear Hpre Hpost HL HR. subst l nodes.
  rewrite splice_right, splice_left in H.
  case_bool_decide as Hd1.
  - right. injection H as <-. eapply absorbs_right; eauto.
  - case_bool_decide as Hd2; [|injection H as <-; by left].
    right. injection H as <-. eapply absorbs_left; eauto.
Qed.

Lemma absorbs_length nodes nodes' :
  absorbs nodes nodes' → S (length nodes') = length nodes.
Proof. intros []; rewrite !length_app; simpl; lia. Qed.

(** Inside the array the body of the scan never reads [undefined]. *)
Lemma absorb_total l iteration nodes :
  l + 1 < length nodes →
  ∃ nodes', absorb l iteration nodes = Done nodes'.
Proof.
  intros Hl. unfold absorb.
  destruct (lookup_lt_is_Some_2 nodes l) as [L ->]; [lia|].
  destruct (lookup_lt_is_Some_2 nodes (l + 1)) as [R ->]; [lia|].
  destruct (matchNodes L R iteration); [|eauto].
  repeat case_bool_decide; eauto.
Qed.

Lemma forLoop_Done k iteration nodes nodes' :
  forLoop k iteration nodes = Done nodes' → rtc absorbs nodes nodes'.
Proof.
  revert nodes. induction k as [|l IH]; simpl; intros nodes H.
  - injection H as <-. apply rtc_refl.
  - destruct (absorb l iteration nodes) as [nodes1| |] eqn:Ha; try discriminate.
    apply absorb_Done in Ha as [->|Ha]; [by apply IH|].
    eapply rtc_l; [exact Ha|]. by apply IH.
Qed.

Lemma rtc_absorbs_length nodes nodes' :
  rtc absorbs nodes nodes' → length nodes' ≤ length nodes.
Proof.
  induction 1 as [|x y z Hxy _ IH]; [lia|].
  apply absorbs_length in Hxy. lia.
Qed.

(** The scan started at [nodes.length - 2] stays inside the array: the
    array loses at most one node per position visited. *)
Lemma forLoop_total k iteration nodes :
  k ≤ length nodes - 1 →
  ∃ nodes', forLoop k iteration nodes = Done nodes'.
Proof.
  revert nodes. induction k as [|l IH]; simpl; intros nodes Hk; [eauto|].
  destruct (absorb_total l iteration nodes) as [nodes1 Ha]; [lia|].
  rewrite Ha. apply IH.
  apply absorb_Done in Ha as [->|Ha]; [lia|].
  apply absorbs_length in Ha. lia.
Qed.

Lemma pass_total iteration nodes :
  ∃ nodes', pass iteration nodes = Done nodes'.
Proof. apply forLoop_total. lia. Qed.

Lemma whileLoop_Done fuel recursionLimit iteration nodes it' res :
  whileLoop fuel recursionLimit iteration nodes = Done (it', res) →
  rtc absorbs nodes res.
Proof.
  revert iteration nodes.
  induction fuel as [|fuel IH]; simpl; intros iteration nodes H.
  - destruct (_ && _); [discriminate|]. injection H as _ <-. apply rtc_refl.
  - destruct (_ && _).
    + destruct (pass iteration nodes) as [nodes1| |] eqn:Hp; try discriminate.
      apply forLoop_Done in Hp. etrans; [exact Hp|]. by eapply IH.
    + injection H as _ <-. apply rtc_refl.
Qed.

(** With enough fuel the [while] loop returns, after at most
    [recursionLimit - iteration] further passes. *)
Lemma whileLoop_total fuel recursionLimit iteration nodes :
  Z.to_nat (recursionLimit - iteration) ≤ fuel →
  ∃ it' res, whileLoop fuel recursionLimit iteration nodes = Done (it', res)
    ∧ (iteration ≤ it')%Z ∧ (it' ≤ Z.max iteration recursionLimit)%Z.
Proof.
  revert iteration nodes.
  induction fuel as [|fuel IH]; simpl; intros iteration nodes Hf.
  - destruct (Z.ltb_spec iteration recursionLimit); [lia|]. simpl.
    exists iteration, nodes. repeat split; lia.
  - destruct (_ && _) eqn:Hc.
    + apply andb_prop in Hc as [Hc _]. apply Z.ltb_lt in Hc.
      destruct (pass_total iteration nodes) as [nodes1 ->].
      destruct (IH (iteration + 1)%Z nodes1) as (it' & res & -> & H1 & H2);
        [lia|].
      exists it', res. repeat split; lia.
    + exists iteration, nodes. repeat split; lia.
Qed.

Lemma buildRelationships_Done fuel nodes recursionLimit res :
  buildRelationships fuel nodes recursionLimit = Done res →
  rtc absorbs nodes res.
Proof.
  unfold buildRelationships. intros H.
  destruct (whileLoop fuel recursionLimit 0 nodes) as [[it' r]| |] eqn:Hw;
    try discriminate.
  injection H as <-. by eapply whileLoop_Done.
Qed.

Lemma buildRelationships_total fuel nodes recursionLimit :
  Z.to_nat recursionLimit ≤ fuel →
  ∃ res, buildRelationships fuel nodes recursionLimit = Done res.
Proof.
  intros Hf. unfold buildRelationships.
  destruct (whileLoop_total fuel recursionLimit 0 nodes) as (it' & res & -> & _);
    [lia|]. by exists res.
Qed.

(** What is known of the two nodes and of the rule at an absorption. *)
Lemma absorbs_inv nodes nodes' :
  absorbs nodes nodes' →
  ∃ pre L R post rel iteration,
    nodes = pre ++ L :: R :: post
    ∧ rel ∈ relationships
    ∧ skips rel L R iteration = false
    ∧ ((Rel.direction rel = "<-"
        ∧ nodes' = pre ++ pushRight L (setLabel R (Rel.label rel)) :: post)
       ∨ (Rel.direction rel = "->"
          ∧ nodes' = pre ++ pushLeft R (setLabel L (Rel.label rel)) :: post)).
Proof.
  intros [pre L R post m it Hm Hd|pre L R post m it Hm Hd];
    apply matchNodes_Some in Hm as (rel & Hin & Hs & Hdir & Hlab);
    exists pre, L, R, post, rel, it; rewrite Hlab; rewrite Hdir in Hd;
    repeat split; auto.
Qed.

(** ** Forests *)

Lemma descendants_eq n :
  descendants n = n :: reachable (Node.left n) ++ reachable (Node.right n).
Proof. by destruct n. Qed.

Lemma reachable_app a b : reachable (a ++ b) = reachable a ++ reachable b.
Proof. apply flat_map_app. Qed.

Lemma reachable_cons n a :
  reachable (n :: a)
  = n :: reachable (Node.left n) ++ reachable (Node.right n) ++ reachable a.
Proof.
  change (reachable (n :: a)) with (descendants n ++ reachable a).
  rewrite descendants_eq. simpl. by rewrite <- app_assoc.
Qed.

Lemma reachable_nil : reachable [] = [].
Proof. reflexivity. Qed.

Lemma countLabel_app l a b :
  countLabel l (a ++ b) = countLabel l a + countLabel l b.
Proof. unfold countLabel. by rewrite List.filter_app, length_app. Qed.

Lemma countLabel_cons l n a :
  countLabel l (n :: a) = (if hasLabel l n then 1 else 0) + countLabel l a.
Proof. unfold countLabel. simpl. by destruct (hasLabel l n). Qed.

Lemma countLabel_nil l : countLabel l [] = 0.
Proof. reflexivity. Qed.

Lemma hasLabel_setLabel l n lab :
  hasLabel l (setLabel n lab) = bool_decide (lab = l).
Proof.
  unfold hasLabel. simpl. apply bool_decide_ext. split; congruence.
Qed.

Lemma isRoot_setLabel n lab :
  isRoot (setLabel n lab) = bool_decide (lab = "ROOT").
Proof. apply hasLabel_setLabel. Qed.

Lemma hasLabel_false l n : Node.label n ≠ Some l → hasLabel l n = false.
Proof. apply bool_decide_eq_false_2. Qed.

Lemma rule_label_not_root rel :
  Forall (λ r, Rel.label r ≠ "ROOT") relationships →
  rel ∈ relationships → bool_decide (Rel.label rel = "ROOT") = false.
Proof.
  intros HF Hin. apply bool_decide_eq_false_2.
  rewrite Forall_forall in HF. by apply HF.
Qed.

(** Normal form of a test or a count over the nodes reachable in a forest
    that is given by its top-level nodes. *)
Ltac forest_normal :=
  repeat first
    [ rewrite reachable_app | rewrite reachable_cons | rewrite reachable_nil
    | rewrite existsb_app | rewrite forallb_app
    | rewrite countLabel_app | rewrite countLabel_cons
    | rewrite countLabel_nil
    | progress cbn [existsb forallb Node.left Node.right Node.label
                    pushRight pushLeft setLabel app] ].

Ltac abstract_forest :=
  repeat match goal with
  | |- context [existsb ?p ?l] => generalize (existsb p l); intro
  | |- context [forallb ?p ?l] => generalize (forallb p l); intro
  | |- context [Nat.leb ?a ?b] => generalize (Nat.leb a b); intro
  end.

(** An absorption by a rule that is not labelled ROOT leaves unchanged
    whether a ROOT node is a child somewhere: the node that becomes a child
    did not carry ROOT and does not receive it. *)
Lemma absorbs_rootAbsorbed nodes nodes' :
  Forall (λ r, Rel.label r ≠ "ROOT") relationships →
  absorbs nodes nodes' → rootAbsorbed nodes' = rootAbsorbed nodes.
Proof.
  intros HF Ha.
  apply absorbs_inv in Ha
    as (pre & L & R & post & rel & it & -> & Hin & Hs & [[Hd ->]|[Hd ->]]);
    unfold rootAbsorbed; forest_normal;
    rewrite isRoot_setLabel, (rule_label_not_root rel HF Hin);
    abstract_forest; btauto.
Qed.

(** An absorption never moves the ROOT label: the number of ROOT nodes in
    the forest and the ROOT nodes of the top level stay the same. *)
Lemma absorbs_rootCount nodes nodes' :
  Forall (λ r, Rel.label r ≠ "ROOT") relationships →
  absorbs nodes nodes' →
  rootCount nodes' = rootCount nodes ∧ topRoots nodes' = topRoots nodes.
Proof.
  intros HF Ha.
  apply absorbs_inv in Ha
    as (pre & L & R & post & rel & it & -> & Hin & Hs & [[Hd ->]|[Hd ->]]);
    apply skips_false in Hs as (Hr1 & Hr2 & _).
  - specialize (Hr1 Hd). apply hasLabel_false in Hr1. split.
    + unfold rootCount. forest_normal.
      change (hasLabel "ROOT" (pushRight L ?c)) with (hasLabel "ROOT" L).
      rewrite hasLabel_setLabel, (rule_label_not_root rel HF Hin), Hr1. lia.
    + unfold topRoots. rewrite !List.filter_app. cbn [List.filter].
      unfold isRoot.
      change (hasLabel "ROOT" (pushRight L ?c)) with (hasLabel "ROOT" L).
      rewrite Hr1. destruct (hasLabel "ROOT" L); [|reflexivity].
      rewrite !fmap_app, !fmap_cons. reflexivity.
  - specialize (Hr2 Hd). apply hasLabel_false in Hr2. split.
    + unfold rootCount. forest_normal.
      change (hasLabel "ROOT" (pushLeft R ?c)) with (hasLabel "ROOT" R).
      rewrite hasLabel_setLabel, (rule_label_not_root rel HF Hin), Hr2. lia.
    + unfold topRoots. rewrite !List.filter_app. cbn [List.filter].
      unfold isRoot.
      change (hasLabel "ROOT" (pushLeft R ?c)) with (hasLabel "ROOT" R).
      rewrite Hr2. destruct (hasLabel "ROOT" R); [|reflexivity].
      rewrite !fmap_app, !fmap_cons. reflexivity.
Qed.

(** An absorption keeps the single-subject property: a left child
    labelled NSUBJ or NSUBJPASS is only added where there was none. *)
Lemma absorbs_singleSubject nodes nodes' :
  absorbs nodes nodes' → singleSubject nodes' = singleSubject nodes.
Proof.
  intros Ha.
  apply absorbs_inv in Ha
    as (pre & L & R & post & rel & it & -> & Hin & Hs & [[Hd ->]|[Hd ->]]).
  - unfold singleSubject. forest_normal. abstract_forest. btauto.
  - apply skips_false in Hs as (_ & _ & Hs1 & Hs2).
    specialize (Hs1 Hd). specialize (Hs2 Hd).
    unfold singleSubject. forest_normal. rewrite !hasLabel_setLabel.
    assert (Hcount :
      ((countLabel "NSUBJ" (Node.left R)
          + ((if bool_decide (Rel.label rel = "NSUBJ") then 1 else 0) + 0)
          <=? 1)
       && (countLabel "NSUBJPASS" (Node.left R)
          + ((if bool_decide (Rel.label rel = "NSUBJPASS") then 1 else 0) + 0)
          <=? 1))
      = ((countLabel "NSUBJ" (Node.left R) <=? 1)
         && (countLabel "NSUBJPASS" (Node.left R) <=? 1))).
    { case_bool_decide as H1.
      - rewrite (Hs1 H1). rewrite bool_decide_eq_false_2 by (by rewrite H1).
        by rewrite !Nat.add_0_r.
      - case_bool_decide as H2; [|by rewrite !Nat.add_0_r].
        rewrite (Hs2 H2). by rewrite !Nat.add_0_r. }
    rewrite Hcount. abstract_forest. btauto.
Qed.

Lemma rtc_absorbs_const {A} (f : list NodeInterface → A) nodes nodes' :
  (∀ x y, absorbs x y → f y = f x) →
  rtc absorbs nodes nodes' → f nodes' = f nodes.
Proof.
  intros Hf. induction 1 as [|x y z Hxy _ IH]; [reflexivity|].
  rewrite IH. by apply Hf.
Qed.

Lemma insert_middle {A} (l : list A) j x y :
  l !! j = Some x →
  ∃ pre post, l = pre ++ x :: post ∧ <[j := y]> l = pre ++ y :: post.
Proof.
  intros Hl. exists (take j l), (drop (S j) l). split.
  - by rewrite take_drop_middle.
  - apply insert_take_drop. by eapply lookup_lt_Some.
Qed.

(** The identifier writes one label of the top level and nothing else. *)
Lemma identifyRoot_marks nodes :
  identifyRoot nodes = nodes
  ∨ ∃ pre node post, nodes = pre ++ node :: post
      ∧ identifyRoot nodes = pre ++ setLabel node "ROOT" :: post.
Proof.
  destruct (identifyRoot_cases nodes) as [[-> _]|(j & n & Hl & _ & _ & ->)];
    [by left|right].
  destruct (insert_middle nodes j n (setLabel n "ROOT") Hl)
    as (pre & post & H1 & H2).
  exists pre, n, post. by split.
Qed.

Lemma identifyRoot_rootAbsorbed nodes :
  rootAbsorbed (identifyRoot nodes) = rootAbsorbed nodes.
Proof.
  destruct (identifyRoot_marks nodes) as [->|(pre & n & post & H1 & ->)];
    [reflexivity|]. rewrite H1. unfold rootAbsorbed. by forest_normal.
Qed.

Lemma identifyRoot_singleSubject nodes :
  singleSubject (identifyRoot nodes) = singleSubject nodes.
Proof.
  destruct (identifyRoot_marks nodes) as [->|(pre & n & post & H1 & ->)];
    [reflexivity|]. rewrite H1. unfold singleSubject. by forest_normal.
Qed.

Lemma identifyRoot_rootCount nodes :
  rootCount (identifyRoot nodes) ≤ rootCount nodes + 1.
Proof.
  destruct (identifyRoot_marks nodes) as [->|(pre & n & post & H1 & ->)];
    [lia|]. rewrite H1. unfold rootCount. forest_normal.
  destruct (hasLabel "ROOT" (setLabel n "ROOT")), (hasLabel "ROOT" n); lia.
Qed.

Lemma relating_total fuel nodes recursionLimit :
  Z.to_nat recursionLimit ≤ fuel →
  ∃ res, relating fuel nodes recursionLimit = Done res
    ∧ rtc absorbs (identifyRoot nodes) res.
Proof.
  intros Hf. unfold relating.
  destruct (buildRelationships_total fuel (identifyRoot nodes) recursionLimit Hf)
    as [res Hres].
  exists res. split; [exact Hres|]. by eapply buildRelationships_Done.
Qed.

(** ** The invariants of the tree *)

(** The ROOT nodes of the top level are kept by an absorption, whatever
    the rules are labelled: the absorbed node is not one of them and the
    label of the absorbing node is not written. *)
Lemma absorbs_topRoots x y : absorbs x y → topRoots y = topRoots x.
Proof.
  intros Ha.
  apply absorbs_inv in Ha
    as (pre & L & R & post & rel & it & -> & _ & Hs & [[Hd ->]|[Hd ->]]);
    apply skips_false in Hs as (Hr1 & Hr2 & _);
    unfold topRoots; rewrite !List.filter_app; cbn [List.filter];
    unfold isRoot.
  - specialize (Hr1 Hd). apply hasLabel_false in Hr1.
    change (hasLabel "ROOT" (pushRight L ?c)) with (hasLabel "ROOT" L).
    rewrite Hr1. destruct (hasLabel "ROOT" L); [|reflexivity].
    rewrite !fmap_app, !fmap_cons. reflexivity.
  - specialize (Hr2 Hd). apply hasLabel_false in Hr2.
    change (hasLabel "ROOT" (pushLeft R ?c)) with (hasLabel "ROOT" R).
    rewrite Hr2. destruct (hasLabel "ROOT" R); [|reflexivity].
    rewrite !fmap_app, !fmap_cons. reflexivity.
Qed.

(** C1 (with the assumption its last part needs). For every input, rule
    table and iteration count, a node labelled ROOT is never absorbed: the
    matcher skips every rule of direction "<-" when the right node carries
    ROOT and every rule of direction "->" when the left node carries ROOT,
    so the builder takes no ROOT node away from the top level (nor adds
    one): the ROOT nodes of the top level are, in order, those the root
    identifier left.  When, in addition, no rule of the table is itself
    labelled ROOT and no child list of the input holds a ROOT node, no node
    labelled ROOT is in a child list of the result. *)
Theorem root_never_absorbed fuel nodes recursionLimit :
  Z.to_nat recursionLimit ≤ fuel →
  (∀ rel left right iteration,
      (Rel.direction rel = "<-" ∧ Node.label right = Some "ROOT")
      ∨ (Rel.direction rel = "->" ∧ Node.label left = Some "ROOT") →
      skips rel left right iteration = true)
  ∧ (∀ left right iteration m,
      matchNodes left right iteration = Some m →
      (MatchResult.direction m = "<-" → Node.label right ≠ Some "ROOT")
      ∧ (MatchResult.direction m = "->" → Node.label left ≠ Some "ROOT"))
  ∧ ∃ res, relating fuel nodes recursionLimit = Done res
      ∧ topRoots res = topRoots (identifyRoot nodes)
      ∧ (Forall (λ r, Rel.label r ≠ "ROOT") relationships →
         rootAbsorbed nodes = false →
         rootAbsorbed res = false).
Proof.
  intros Hfuel. split; [|split].
  - exact skips_root_protection.
  - exact matchNodes_root_protection.
  - destruct (relating_total fuel nodes recursionLimit Hfuel) as (res & Hr & Hs).
    exists res. split; [exact Hr|]. split.
    + exact (rtc_absorbs_const topRoots _ _ absorbs_topRoots Hs).
    + intros HF Hin.
      rewrite (rtc_absorbs_const rootAbsorbed _ _
                 (λ x y, absorbs_rootAbsorbed x y HF) Hs).
      by rewrite identifyRoot_rootAbsorbed.
Qed.

(** C4. For an input in which no node carries ROOT, the identifier marks
    the first qualifying node and no other, so at most one node carries ROOT
    afterwards; and when no rule of the table is labelled ROOT the builder
    neither gives the label to another node nor takes it from a top-level
    node: the number of ROOT nodes of the forest and the ROOT nodes of the
    top level are those the identifier left. *)
Theorem at_most_one_root fuel nodes recursionLimit :
  rootCount nodes = 0 →
  Forall (λ r, Rel.label r ≠ "ROOT") relationships →
  Z.to_nat recursionLimit ≤ fuel →
  rootCount (identifyRoot nodes) ≤ 1
  ∧ ((identifyRoot nodes = nodes ∧ ∀ j, qualifies nodes j = false)
     ∨ ∃ j node, nodes !! j = Some node
         ∧ qualifies nodes j = true
         ∧ (∀ j', j' < j → qualifies nodes j' = false)
         ∧ identifyRoot nodes = <[j := setLabel node "ROOT"]> nodes)
  ∧ ∃ res, relating fuel nodes recursionLimit = Done res
      ∧ rootCount res = rootCount (identifyRoot nodes)
      ∧ topRoots res = topRoots (identifyRoot nodes).
Proof.
  intros H0 HF Hfuel. split; [|split].
  - pose proof (identifyRoot_rootCount nodes). lia.
  - apply identifyRoot_cases.
  - destruct (relating_total fuel nodes recursionLimit Hfuel) as (res & Hr & Hs).
    exists res. split; [exact Hr|]. split.
    + apply (rtc_absorbs_const rootCount _ _
               (λ x y Ha, proj1 (absorbs_rootCount x y HF Ha)) Hs).
    + apply (rtc_absorbs_const topRoots _ _
               (λ x y Ha, proj2 (absorbs_rootCount x y HF Ha)) Hs).
Qed.

(** C5. The matcher skips a rule of direction "->" labelled NSUBJ (or
    NSUBJPASS) whenever the left children of the right node already hold a
    node with that label; hence, for an input that has the property (in
    particular for nodes without children), every node reachable in the
    result has at most one left child labelled NSUBJ and at most one
    labelled NSUBJPASS. *)
Theorem single_subject fuel nodes recursionLimit :
  singleSubject nodes = true →
  Z.to_nat recursionLimit ≤ fuel →
  (∀ rel left right iteration,
      Rel.direction rel = "->" →
      Rel.label rel = "NSUBJ" ∨ Rel.label rel = "NSUBJPASS" →
      0 < countLabel (Rel.label rel) (Node.left right) →
      skips rel left right iteration = true)
  ∧ ∃ res, relating fuel nodes recursionLimit = Done res
      ∧ singleSubject res = true.
Proof.
  intros Hin Hfuel. split.
  - exact skips_duplicate_subject.
  - destruct (relating_total fuel nodes recursionLimit Hfuel) as (res & Hr & Hs).
    exists res. split; [exact Hr|].
    rewrite (rtc_absorbs_const singleSubject _ _ absorbs_singleSubject Hs).
    by rewrite identifyRoot_singleSubject.
Qed.

(** ** Termination and degenerate inputs *)

Lemma whileLoop_stops fuel recursionLimit iteration nodes :
  (recursionLimit ≤ iteration)%Z ∨ length nodes ≤ 1 →
  whileLoop fuel recursionLimit iteration nodes = Done (iteration, nodes).
Proof.
  intros H.
  assert (Hc : (iteration <? recursionLimit)%Z && (1 <? length nodes) = false).
  { apply andb_false_iff. destruct H as [H|H].
    - left. apply Z.ltb_ge. lia.
    - right. apply Nat.ltb_ge. lia. }
  destruct fuel; simpl; by rewrite Hc.
Qed.


(** C8. The entry point returns a result on degenerate input: an empty
    array is returned at once, unchanged, whatever the limit and the fuel
    are; and with a recursion limit that is zero or negative no pass is
    made, so the result is what the root identifier returned, the input with
    at most one label set to ROOT. *)
Theorem degenerate_input fuel nodes recursionLimit :
  (recursionLimit ≤ 0)%Z →
  (∀ fuel' limit',
      whileLoop fuel' limit' 0 (identifyRoot []) = Done (0%Z, [])
      ∧ relating fuel' [] limit' = Done [])
  ∧ whileLoop fuel recursionLimit 0 (identifyRoot nodes)
    = Done (0%Z, identifyRoot nodes)
  ∧ relating fuel nodes recursionLimit = Done (identifyRoot nodes)
  ∧ (identifyRoot nodes = nodes
     ∨ ∃ j node, nodes !! j = Some node
         ∧ identifyRoot nodes = <[j := setLabel node "ROOT"]> nodes).
Proof.
  intros Hlim. split; [|split; [|split]].
  - intros fuel' limit'.
    assert (Hw : whileLoop fuel' limit' 0 (identifyRoot []) = Done (0%Z, [])).
    { apply whileLoop_stops. right. simpl. lia. }
    split; [exact Hw|]. unfold relating, buildRelationships. by rewrite Hw.
  - apply whileLoop_stops. by left.
  - unfold relating, buildRelationships.
    rewrite whileLoop_stops by by left. reflexivity.
  - destruct (identifyRoot_cases nodes) as [[-> _]|(j & n & Hl & _ & _ & ->)];
      [by left|right; eauto].
Qed.

(** ** Contractions before conjugation *)

Lemma deContract_other t : t ∉ contractions → deContract t = t.
Proof.
  intros Hn. unfold deContract, contractions in *. simpl.
  repeat (case_bool_decide as H;
          [exfalso; apply Hn; rewrite <- H; set_solver|clear H]).
  reflexivity.
Qed.

Lemma deContract_idem t : deContract (deContract t) = deContract t.
Proof.
  destruct (decide (t ∈ contractions)) as [Hin|Hn].
  - unfold contractions in Hin.
    repeat (apply elem_of_cons in Hin as [->|Hin]; [reflexivity|]).
    by apply elem_of_nil in Hin.
  - by rewrite !(deContract_other t Hn).
Qed.

Lemma canonical_expandFirst n : canonical (expandFirst n) = canonical n.
Proof.
  unfold canonical, firstToken, expandFirst. f_equal. simpl.
  destruct (Node.tokens n); simpl; [reflexivity|]. by rewrite deContract_idem.
Qed.

Lemma skips_expandFirst rel left right iteration :
  skips rel (expandFirst left) (expandFirst right) iteration
  = skips rel left right iteration.
Proof. unfold skips. by rewrite !canonical_expandFirst. Qed.

Lemma matchLoop_expandFirst rels left right iteration :
  matchLoop rels (expandFirst left) (expandFirst right) iteration
  = matchLoop rels left right iteration.
Proof.
  induction rels as [|r rels IH]; simpl; [reflexivity|].
  by rewrite skips_expandFirst, IH.
Qed.

(** C9. [deContract] maps 'm, 's, 'd, 'll, 're, 've to am, is, would,
    will, are, have and leaves every other token as it is.  The lemma that
    the matcher compares with [leftTokens] and [rightTokens], and that the
    root identifier compares with the auxiliary lemmas, is the conjugation
    of the expanded first token: a rule that constrains nothing but the
    tokens is skipped exactly when that lemma is missing from its list, and
    neither the matcher nor the identifier tells a contraction from its
    expansion.  The token 'll is compared as the conjugation of will. *)
Theorem deContract_then_conjugate :
  (deContract "'m" = "am" ∧ deContract "'s" = "is"
   ∧ deContract "'d" = "would" ∧ deContract "'ll" = "will"
   ∧ deContract "'re" = "are" ∧ deContract "'ve" = "have")
  ∧ (∀ t, t ∉ contractions → deContract t = t)
  ∧ (∀ ty tg t ts ix lb l r,
       canonical (Node.mk ty tg (t :: ts) ix lb l r)
       = conjugate (Some (deContract t)))
  ∧ (∀ lt rt left right iteration,
       skips (Rel.mk [] [] lt rt "" "" (-1) (-1)) left right iteration
       = (nonEmpty lt
          && negb (includes lt
                     (conjugate (deContract <$> head (Node.tokens left)))))
         || (nonEmpty rt
             && negb (includes rt
                        (conjugate (deContract <$> head (Node.tokens right))))))
  ∧ (∀ left right iteration,
       matchNodes (expandFirst left) (expandFirst right) iteration
       = matchNodes left right iteration)
  ∧ (∀ node nx1 nx2 nx3,
       continueLine node (expandFirst <$> nx1) nx2 nx3
       = continueLine node nx1 nx2 nx3)
  ∧ (∀ ty tg ts ix lb l r,
       canonical (Node.mk ty tg ("'ll" :: ts) ix lb l r)
       = conjugate (Some "will")).
Proof.
  split; [repeat split; reflexivity|].
  split; [exact deContract_other|].
  split; [reflexivity|].
  split.
  { intros lt rt left right iteration. unfold skips, canonical, firstToken.
    cbn [Rel.left Rel.right Rel.leftTokens Rel.rightTokens Rel.direction
         Rel.label Rel.delay Rel.maxDistance nonEmpty andb].
    change (bool_decide ("" = "<-")) with false.
    change (bool_decide ("" = "->")) with false.
    change (bool_decide ("" = "NSUBJ")) with false.
    change (bool_decide ("" = "NSUBJPASS")) with false.
    cbn [andb negb Z.eqb Z.opp Pos.eqb].
    by destruct (nonEmpty lt && _), (nonEmpty rt && _). }
  split.
  { intros left right iteration. unfold matchNodes.
    by rewrite matchLoop_expandFirst. }
  split; [|reflexivity].
  intros node [n1|] nx2 nx3; [|reflexivity].
  unfold continueLine. simpl. by rewrite canonical_expandFirst.
Qed.

(** ** Further properties of the builder *)

Ltac push_fmap := repeat first [rewrite fmap_app | rewrite fmap_cons].

Lemma absorbs_cores x y :
  absorbs x y → core <$> reachable y ≡ₚ core <$> reachable x.
Proof.
  intros Ha.
  apply absorbs_inv in Ha
    as (pre & L & R & post & rel & it & -> & _ & _ & [[_ ->]|[_ ->]]);
    forest_normal; push_fmap; rewrite fmap_nil, app_nil_r.
  - change (core (pushRight L ?c)) with (core L).
    change (core (setLabel R ?l)) with (core R).
    solve_Permutation.
  - change (core (pushLeft R ?c)) with (core R).
    change (core (setLabel L ?l)) with (core L).
    solve_Permutation.
Qed.

Lemma identifyRoot_cores nodes :
  core <$> reachable (identifyRoot nodes) = core <$> reachable nodes.
Proof.
  destruct (identifyRoot_marks nodes) as [->|(pre & n & post & H1 & ->)];
    [reflexivity|]. rewrite H1. forest_normal. by push_fmap.
Qed.

Lemma absorbs_stems x y :
  absorbs x y → stem <$> y `sublist_of` stem <$> x.
Proof.
  intros [pre L R post m it _ _|pre L R post m it _ _]; push_fmap;
    (apply sublist_app; [reflexivity|]).
  - apply sublist_skip, sublist_cons. reflexivity.
  - apply sublist_cons, sublist_skip. reflexivity.
Qed.

Lemma absorbs_nonempty x y : absorbs x y → y ≠ [].
Proof. intros [] Hy; by apply app_nil in Hy as [_ ?]. Qed.

Lemma rtc_absorbs_nonempty x y : rtc absorbs x y → x ≠ [] → y ≠ [].
Proof.
  induction 1 as [|x y z Hxy _ IH]; [done|].
  intros _. apply IH. by eapply absorbs_nonempty.
Qed.

Lemma rtc_absorbs_cores x y :
  rtc absorbs x y → core <$> reachable y ≡ₚ core <$> reachable x.
Proof.
  induction 1 as [|x y z Hxy _ IH]; [reflexivity|].
  rewrite IH. by apply absorbs_cores.
Qed.

Lemma rtc_absorbs_stems x y :
  rtc absorbs x y → stem <$> y `sublist_of` stem <$> x.
Proof.
  induction 1 as [|x y z Hxy _ IH]; [reflexivity|].
  etrans; [exact IH|]. by apply absorbs_stems.
Qed.

(** X1. Every chunk of the input is in the result exactly once, with its
    type, tags, tokens and position as they were: the builder only moves
    nodes into child lists and writes labels. *)
Theorem chunks_conserved fuel nodes recursionLimit :
  Z.to_nat recursionLimit ≤ fuel →
  ∃ res, relating fuel nodes recursionLimit = Done res
    ∧ core <$> reachable res ≡ₚ core <$> reachable nodes
    ∧ length (reachable res) = length (reachable nodes).
Proof.
  intros Hfuel.
  destruct (relating_total fuel nodes recursionLimit Hfuel) as (res & Hr & Hs).
  assert (Hp : core <$> reachable res ≡ₚ core <$> reachable nodes).
  { rewrite <- (identifyRoot_cores nodes). by apply rtc_absorbs_cores. }
  exists res. split; [exact Hr|]. split; [exact Hp|].
  apply Permutation_length in Hp. by rewrite !length_fmap in Hp.
Qed.

(** X2. The nodes left at the top level are nodes of the array the root
    identifier returned, in the same order, and their type, tags, tokens,
    position and label are untouched: only their child lists have grown. *)
Theorem survivors_keep_order fuel nodes recursionLimit :
  Z.to_nat recursionLimit ≤ fuel →
  ∃ res, relating fuel nodes recursionLimit = Done res
    ∧ stem <$> res `sublist_of` stem <$> identifyRoot nodes.
Proof.
  intros Hfuel.
  destruct (relating_total fuel nodes recursionLimit Hfuel) as (res & Hr & Hs).
  exists res. split; [exact Hr|]. by apply rtc_absorbs_stems.
Qed.

(** X3. Whatever the rule table is, the builder neither removes a ROOT
    node from the top level nor adds one to it. *)
Theorem top_level_roots_kept fuel nodes recursionLimit :
  Z.to_nat recursionLimit ≤ fuel →
  ∃ res, relating fuel nodes recursionLimit = Done res
    ∧ topRoots res = topRoots (identifyRoot nodes).
Proof.
  intros Hfuel.
  destruct (relating_total fuel nodes recursionLimit Hfuel) as (res & Hr & Hs).
  exists res. split; [exact Hr|].
  exact (rtc_absorbs_const topRoots _ _ absorbs_topRoots Hs).
Qed.

(** X4. When the identifier has marked a root and the builder reduces the
    sentence to a single node, that node is the root. *)
Theorem complete_parse_is_rooted fuel nodes recursionLimit n :
  topRoots (identifyRoot nodes) ≠ [] →
  relating fuel nodes recursionLimit = Done [n] →
  Node.label n = Some "ROOT".
Proof.
  intros Hroot Hr. unfold relating in Hr.
  apply buildRelationships_Done in Hr.
  rewrite <- (rtc_absorbs_const topRoots _ _ absorbs_topRoots Hr) in Hroot.
  unfold topRoots in Hroot. cbn [List.filter] in Hroot.
  unfold isRoot, hasLabel in Hroot.
  case_bool_decide as Hn; [exact Hn|done].
Qed.

(** X5. The result never has more top-level nodes than the input, and a
    sentence that is not empty is never reduced to nothing. *)
Theorem result_shrinks fuel nodes recursionLimit :
  Z.to_nat recursionLimit ≤ fuel →
  ∃ res, relating fuel nodes recursionLimit = Done res
    ∧ length res ≤ length nodes
    ∧ (nodes ≠ [] → res ≠ []).
Proof.
  intros Hfuel.
  destruct (relating_total fuel nodes recursionLimit Hfuel) as (res & Hr & Hs).
  exists res. split; [exact Hr|]. split.
  - apply rtc_absorbs_length in Hs. by rewrite identifyRoot_length in Hs.
  - intros Hne. apply (rtc_absorbs_nonempty _ _ Hs).
    intros He. apply Hne. apply length_zero_iff_nil.
    by rewrite <- identifyRoot_length, He.
Qed.



(** *** Rules that cannot fire *)



(** A pass in which no pair gets a match with a direction the builder
    knows leaves the array as it is. *)
Lemma forLoop_inert k iteration nodes :
  (∀ L R m, matchNodes L R iteration = Some m →
     MatchResult.direction m ≠ "<-" ∧ MatchResult.direction m ≠ "->") →
  k ≤ length nodes - 1 →
  forLoop k iteration nodes = Done nodes.
Proof.
  intros Hin. induction k as [|l IH]; simpl; intros Hk; [reflexivity|].
  assert (Ha : absorb l iteration nodes = Done nodes).
  { unfold absorb.
    destruct (lookup_lt_is_Some_2 nodes l) as [L ->]; [lia|].
    destruct (lookup_lt_is_Some_2 nodes (l + 1)) as [R ->]; [lia|].
    destruct (matchNodes L R iteration) as [m|] eqn:Hm; [|reflexivity].
    destruct (Hin L R m Hm) as [H1 H2].
    by rewrite !bool_decide_eq_false_2. }
  rewrite Ha. apply IH. lia.
Qed.

Lemma whileLoop_inert fuel recursionLimit iteration nodes :
  (∀ it L R m, (iteration ≤ it < recursionLimit)%Z →
     matchNodes L R it = Some m →
     MatchResult.direction m ≠ "<-" ∧ MatchResult.direction m ≠ "->") →
  Z.to_nat (recursionLimit - iteration) ≤ fuel →
  ∃ it', whileLoop fuel recursionLimit iteration nodes = Done (it', nodes).
Proof.
  revert iteration.
  induction fuel as [|fuel IH]; simpl; intros iteration Hin Hf.
  - destruct (Z.ltb_spec iteration recursionLimit); [lia|]. simpl. eauto.
  - destruct (_ && _) eqn:Hc; [|eauto].
    apply andb_prop in Hc as [Hc _]. apply Z.ltb_lt in Hc.
    unfold pass. rewrite forLoop_inert; [|intros L R m; apply Hin; lia|lia].
    apply IH; [|lia]. intros it L R m Hit. apply Hin. lia.
Qed.

(** X7. When no rule of the table has the direction "<-" or "->" (an
    empty table included), the builder attaches nothing: the result is the
    array the root identifier returned. *)
Theorem no_direction_no_change fuel nodes recursionLimit :
  Forall (λ r, Rel.direction r ≠ "<-" ∧ Rel.direction r ≠ "->")
         relationships →
  Z.to_nat recursionLimit ≤ fuel →
  relating fuel nodes recursionLimit = Done (identifyRoot nodes).
Proof.
  intros HF Hfuel. unfold relating, buildRelationships.
  destruct (whileLoop_inert fuel recursionLimit 0 (identifyRoot nodes))
    as [it' ->]; [|lia|reflexivity].
  intros it L R m _ Hm.
  apply matchNodes_Some in Hm as (rel & Hin & _ & -> & _).
  rewrite Forall_forall in HF. by apply HF.
Qed.


(** *** Labels of the children *)

Lemma absorbs_childrenLabelled x y :
  absorbs x y →
  childrenLabelled (Rel.label <$> relationships) y
  = childrenLabelled (Rel.label <$> relationships) x.
Proof.
  intros Ha.
  apply absorbs_inv in Ha
    as (pre & L & R & post & rel & it & -> & Hin & _ & [[_ ->]|[_ ->]]);
    unfold childrenLabelled; forest_normal; cbn [includes_opt];
    (assert (Hl : includes (Rel.label <$> relationships) (Rel.label rel)
                  = true)
       by (apply includes_true, list_elem_of_fmap; eauto));
    rewrite Hl; abstract_forest; btauto.
Qed.

Lemma identifyRoot_childrenLabelled labels nodes :
  childrenLabelled labels (identifyRoot nodes) = childrenLabelled labels nodes.
Proof.
  destruct (identifyRoot_marks nodes) as [->|(pre & n & post & H1 & ->)];
    [reflexivity|]. rewrite H1. unfold childrenLabelled. by forest_normal.
Qed.

(** X9. Every node that the builder attaches carries the label of a rule
    of the table: for an input whose child lists are so labelled already
    (nodes without children in particular), every node in a child list of
    the result has a label, and that label is one of the table. *)
Theorem children_carry_rule_labels fuel nodes recursionLimit :
  childrenLabelled (Rel.label <$> relationships) nodes = true →
  Z.to_nat recursionLimit ≤ fuel →
  ∃ res, relating fuel nodes recursionLimit = Done res
    ∧ childrenLabelled (Rel.label <$> relationships) res = true.
Proof.
  intros Hin Hfuel.
  destruct (relating_total fuel nodes recursionLimit Hfuel) as (res & Hr & Hs).
  exists res. split; [exact Hr|].
  rewrite (rtc_absorbs_const
             (childrenLabelled (Rel.label <$> relationships)) _ _
             absorbs_childrenLabelled Hs).
  by rewrite identifyRoot_childrenLabelled.
Qed.

(** *** The matcher across passes *)

Lemma rejectsDelay_later rel i j :
  (i ≤ j)%Z → rejectsDelay rel i = false → rejectsDelay rel j = false.
Proof.
  unfold rejectsDelay. intros Hij Hi.
  apply andb_false_iff in Hi as [Hi|Hi]; apply andb_false_iff;
    [by left|right].
  apply Z.leb_gt in Hi. apply Z.leb_gt. lia.
Qed.

Lemma skips_later rel left right i j :
  (i ≤ j)%Z →
  skips rel left right i = false → skips rel left right j = false.
Proof.
  intros Hij. rewrite !skips_satisfied, !negb_false_iff.
  unfold satisfied. intros H.
  destruct (rejectsDelay rel i) eqn:Hi.
  - exfalso. revert H. by destruct (rejectsTypeSets rel left right).
  - by rewrite (rejectsDelay_later rel i j Hij Hi).
Qed.

(** X10. A pair of nodes that the matcher accepts in one pass is accepted
    in every later pass as long as the two nodes are unchanged: only the
    delay depends on the pass, and it only opens rules. *)
Theorem match_persists left right i j :
  (i ≤ j)%Z →
  is_Some (matchNodes left right i) → is_Some (matchNodes left right j).
Proof.
  intros Hij. unfold matchNodes.
  assert (Hl : ∀ rels, is_Some (matchLoop rels left right i) →
                 is_Some (matchLoop rels left right j)).
  { induction rels as [|r rels IH]; simpl; [done|].
    destruct (skips r left right i) eqn:Hi.
    - intros H. destruct (skips r left right j); [by apply IH|eauto].
    - intros _. rewrite (skips_later r left right i j Hij Hi). eauto. }
  intros H. specialize (Hl relationships).
  destruct (matchLoop relationships left right i); [|by destruct H].
  destruct Hl as [r' ->]; eauto.
Qed.

(** X11. What the two directions do to a sentence of two nodes that match
    in the first pass: with "<-" the RIGHT node, labelled by the rule,
    becomes the last right child of the left node; with "->" the LEFT node,
    labelled by the rule, becomes the last left child of the right node.
    One node is left and the builder stops. *)
Theorem pair_absorption fuel leftNode rightNode cap m :
  (1 ≤ cap)%Z →
  1 ≤ fuel →
  matchNodes leftNode rightNode 0 = Some m →
  (MatchResult.direction m = "<-" →
     buildRelationships fuel [leftNode; rightNode] cap
     = Done [pushRight leftNode (setLabel rightNode (MatchResult.label m))])
  ∧ (MatchResult.direction m = "->" →
       buildRelationships fuel [leftNode; rightNode] cap
       = Done [pushLeft rightNode (setLabel leftNode (MatchResult.label m))]).
Proof.
  intros Hcap Hfuel Hm.
  destruct fuel as [|fuel]; [lia|].
  unfold buildRelationships. cbn [whileLoop length].
  destruct (Z.ltb_spec 0 cap) as [_|?]; [|lia].
  cbn [Nat.ltb Nat.leb andb].
  unfold pass. cbn [length Nat.sub forLoop absorb lookup list_lookup Nat.add].
  rewrite Hm. split; intros Hd; rewrite Hd.
  - rewrite bool_decide_eq_true_2 by reflexivity. cbn.
    by rewrite whileLoop_stops by (right; simpl; lia).
  - rewrite bool_decide_eq_false_2 by discriminate.
    rewrite bool_decide_eq_true_2 by reflexivity. cbn.
    by rewrite whileLoop_stops by (right; simpl; lia).
Qed.

(** *** The root identifier *)

(** X12. The complete table of the lookahead: a candidate verb is passed
    over as an auxiliary exactly when its first tag is a possible-auxiliary
    tag, a next node exists, and one of these holds: the next node is a
    candidate verb; the next node has RB as first tag and is followed by a
    candidate verb, or by an NP and then a candidate verb; the next node
    does not have RB as first tag, the candidate starts at position 0, the
    next node is an NP and is followed by a candidate verb, or by a node
    with RB as first tag and then a candidate verb; the next node does not
    have RB as first tag, the candidate does not start at position 0, the
    next node's lemma is an auxiliary lemma and a candidate verb follows. *)
Theorem auxiliary_patterns node nx1 nx2 nx3 :
  isAuxiliary node nx1 nx2 nx3 = true ↔
  includes_opt pa (firstTag node) = true
  ∧ ∃ n1, nx1 = Some n1
    ∧ (includes vbs (Node.type n1) = true
       ∨ (firstTag n1 = Some "RB"
          ∧ ∃ n2, nx2 = Some n2
            ∧ (includes vbs (Node.type n2) = true
               ∨ (Node.type n2 = "NP"
                  ∧ ∃ n3, nx3 = Some n3
                    ∧ includes vbs (Node.type n3) = true)))
       ∨ (firstTag n1 ≠ Some "RB"
          ∧ fst (Node.index node) = 0%Z
          ∧ Node.type n1 = "NP"
          ∧ ∃ n2, nx2 = Some n2
            ∧ (includes vbs (Node.type n2) = true
               ∨ (firstTag n2 = Some "RB"
                  ∧ ∃ n3, nx3 = Some n3
                    ∧ includes vbs (Node.type n3) = true)))
       ∨ (firstTag n1 ≠ Some "RB"
          ∧ fst (Node.index node) ≠ 0%Z
          ∧ includes oe (canonical n1) = true
          ∧ ∃ n2, nx2 = Some n2
            ∧ includes vbs (Node.type n2) = true)).
Proof.
  unfold isAuxiliary. rewrite bool_decide_eq_true. unfold continueLine.
  split.
  - intros [k Hk]. destruct nx1 as [n1|]; [|discriminate].
    destruct (includes_opt pa (firstTag node)); [|discriminate].
    split; [reflexivity|]. exists n1. split; [reflexivity|].
    destruct (includes vbs (Node.type n1)) eqn:Hv1; [by left|right].
    destruct nx2 as [n2|]; simpl in Hk;
      [|rewrite andb_false_r in Hk; discriminate].
    rewrite andb_true_r in Hk. case_bool_decide as Hrb.
    + left. split; [exact Hrb|]. exists n2. split; [reflexivity|].
      destruct (includes vbs (Node.type n2)) eqn:Hv2; [by left|right].
      destruct nx3 as [n3|]; simpl in Hk; [|discriminate].
      case_bool_decide as Hnp; simpl in Hk; [|discriminate].
      destruct (includes vbs (Node.type n3)) eqn:Hv3; [|discriminate].
      eauto.
    + right. destruct (Z.eqb_spec (fst (Node.index node)) 0) as [H0|H0].
      * left. split; [exact Hrb|]. split; [exact H0|].
        case_bool_decide as Hnp; simpl in Hk.
        -- split; [exact Hnp|]. exists n2. split; [reflexivity|].
           destruct (includes vbs (Node.type n2)) eqn:Hv2; [by left|right].
           destruct nx3 as [n3|]; simpl in Hk; [|discriminate].
           case_bool_decide as Hrb2; simpl in Hk; [|discriminate].
           destruct (includes vbs (Node.type n3)) eqn:Hv3; [|discriminate].
           eauto.
        -- destruct nx3; simpl in Hk; discriminate.
      * right. split; [exact Hrb|]. split; [exact H0|].
        destruct (includes oe (canonical n1)) eqn:Hoe; simpl in Hk;
          [|discriminate].
        destruct (includes vbs (Node.type n2)) eqn:Hv2; simpl in Hk;
          [|discriminate].
        eauto.
  - intros (Hpa & n1 & -> & Hd). rewrite Hpa.
    destruct (includes vbs (Node.type n1)) eqn:Hv1; [eauto|].
    destruct Hd as [Hd|[Hd|[Hd|Hd]]]; [discriminate| | |].
    + destruct Hd as (Hrb & n2 & -> & Hd). simpl.
      rewrite (bool_decide_eq_true_2 _ Hrb). simpl.
      destruct (includes vbs (Node.type n2)) eqn:Hv2; [eauto|].
      destruct Hd as [Hd|(Hnp & n3 & -> & Hv3)]; [discriminate|]. simpl.
      rewrite (bool_decide_eq_true_2 _ Hnp), Hv3. simpl. eauto.
    + destruct Hd as (Hrb & H0 & Hnp & n2 & -> & Hd). simpl.
      rewrite (bool_decide_eq_false_2 _ Hrb). simpl.
      rewrite H0. simpl. rewrite (bool_decide_eq_true_2 _ Hnp). simpl.
      destruct (includes vbs (Node.type n2)) eqn:Hv2; [eauto|].
      destruct Hd as [Hd|(Hrb2 & n3 & -> & Hv3)]; [discriminate|]. simpl.
      rewrite (bool_decide_eq_true_2 _ Hrb2), Hv3. simpl. eauto.
    + destruct Hd as (Hrb & H0 & Hoe & n2 & -> & Hv2). simpl.
      rewrite (bool_decide_eq_false_2 _ Hrb). simpl.
      destruct (Z.eqb_spec (fst (Node.index node)) 0) as [?|_]; [done|].
      rewrite Hoe, Hv2. simpl. eauto.
Qed.

Lemma continueLine_unlabel node nx1 nx2 nx3 :
  continueLine (unlabel node) (unlabel <$> nx1) (unlabel <$> nx2)
               (unlabel <$> nx3)
  = continueLine node nx1 nx2 nx3.
Proof. by destruct nx1, nx2, nx3. Qed.

(** Whether a position qualifies does not depend on the labels. *)
Lemma qualifies_unlabel nodes i :
  qualifies (unlabel <$> nodes) i = qualifies nodes i.
Proof.
  unfold qualifies, isAuxiliary. rewrite !list_lookup_fmap.
  destruct (nodes !! i) as [node|]; simpl; [|reflexivity].
  by rewrite continueLine_unlabel.
Qed.

Lemma unlabel_mark (nodes : list NodeInterface) (j : nat) n l :
  nodes !! j = Some n →
  unlabel <$> <[j := setLabel n l]> nodes = unlabel <$> nodes.
Proof.
  intros Hj. rewrite list_fmap_insert. apply list_insert_id.
  rewrite list_lookup_fmap, Hj. reflexivity.
Qed.

Lemma qualifies_mark (nodes : list NodeInterface) (j : nat) n l i :
  nodes !! j = Some n →
  qualifies (<[j := setLabel n l]> nodes) i = qualifies nodes i.
Proof.
  intros Hj. rewrite <- qualifies_unlabel, (unlabel_mark nodes j n l Hj).
  apply qualifies_unlabel.
Qed.

(** The node that is marked is the first one that qualifies. *)
Lemma identifyRoot_first (nodes : list NodeInterface) (j : nat) n :
  nodes !! j = Some n →
  qualifies nodes j = true →
  (∀ j', j' < j → qualifies nodes j' = false) →
  identifyRoot nodes = <[j := setLabel n "ROOT"]> nodes.
Proof.
  intros Hj Hq Hb.
  destruct (identifyRoot_cases nodes)
    as [[_ Hn]|(j0 & n0 & Hj0 & Hq0 & Hb0 & ->)].
  - rewrite Hn in Hq. discriminate.
  - destruct (Nat.lt_trichotomy j0 j) as [Hlt|[->|Hlt]].
    + rewrite (Hb j0 Hlt) in Hq0. discriminate.
    + rewrite Hj in Hj0. by injection Hj0 as <-.
    + rewrite (Hb0 j Hlt) in Hq. discriminate.
Qed.

(** X13. Running the root identifier on its own result changes nothing:
    it reads no label, so it finds the same node and writes the same
    label. *)
Theorem identifyRoot_idempotent nodes :
  identifyRoot (identifyRoot nodes) = identifyRoot nodes.
Proof.
  destruct (identifyRoot_cases nodes)
    as [[He _]|(j & n & Hj & Hq & Hb & He)]; rewrite He; [exact He|].
  assert (Hj' : (<[j := setLabel n "ROOT"]> nodes) !! j
                = Some (setLabel n "ROOT")).
  { apply list_lookup_insert_eq. by eapply lookup_lt_Some. }
  rewrite (identifyRoot_first _ j (setLabel n "ROOT") Hj').
  - by rewrite list_insert_insert_eq.
  - by rewrite (qualifies_mark nodes j n "ROOT" j Hj).
  - intros j' Hlt. rewrite (qualifies_mark nodes j n "ROOT" j' Hj).
    by apply Hb.
Qed.

(** X14. The root identifier only ever writes on a node whose type is VP,
    VB or VBN: a node of any other type comes back as it was (so a sentence
    without such a node comes back unchanged, with no root). *)
Theorem only_candidates_are_marked (nodes : list NodeInterface) (i : nat) n :
  nodes !! i = Some n →
  includes vbs (Node.type n) = false →
  identifyRoot nodes !! i = Some n.
Proof.
  intros Hi Hv.
  destruct (identifyRoot_cases nodes)
    as [[-> _]|(j & n0 & Hj & Hq & _ & ->)]; [exact Hi|].
  destruct (decide (j = i)) as [->|Hne].
  - exfalso. unfold qualifies in Hq. rewrite Hi in Hq. simpl in Hq.
    rewrite Hv in Hq. discriminate.
  - by rewrite list_lookup_insert_ne.
Qed.

(** X15. The first node of type VP, VB or VBN is marked as the root
    whenever its first tag is not a possible-auxiliary tag (VBG, for
    instance, or no tag at all), whatever follows it. *)
Theorem first_candidate_with_plain_tag pre n post :
  Forall (λ m, includes vbs (Node.type m) = false) pre →
  includes vbs (Node.type n) = true →
  includes_opt pa (firstTag n) = false →
  identifyRoot (pre ++ n :: post) = pre ++ setLabel n "ROOT" :: post.
Proof.
  intros Hpre Hv Hpa.
  assert (Hn : (pre ++ n :: post) !! length pre = Some n).
  { rewrite lookup_app_r by lia. by rewrite Nat.sub_diag. }
  rewrite (identifyRoot_first _ (length pre) n Hn).
  - rewrite insert_app_r_alt by lia. by rewrite Nat.sub_diag.
  - unfold qualifies. rewrite Hn. simpl. rewrite Hv. simpl.
    unfold isAuxiliary, continueLine. rewrite Hpa.
    by destruct ((pre ++ n :: post) !! (length pre + 1)).
  - intros j' Hlt. unfold qualifies.
    destruct (lookup_lt_is_Some_2 pre j' Hlt) as [m Hm].
    rewrite (lookup_app_l_Some _ _ _ _ Hm). simpl.
    rewrite Forall_lookup in Hpre. by rewrite (Hpre j' m Hm).
Qed.

(** X16. [deContract] never returns a contraction, and expanding twice is
    expanding once. *)
Theorem deContract_expands_fully t :
  (deContract t ∉ contractions)
  ∧ deContract (deContract t) = deContract t.
Proof.
  split; [|apply deContract_idem].
  destruct (decide (t ∈ contractions)) as [Hin|Hn].
  - unfold contractions in Hin.
    repeat (apply elem_of_cons in Hin as [->|Hin];
      [match goal with
       | |- deContract ?s ∉ _ =>
           let v := eval vm_compute in (deContract s) in
           change (deContract s) with v
       end;
       unfold contractions; intros H;
       repeat (apply elem_of_cons in H as [H|H]; [discriminate|]);
       by apply elem_of_nil in H|]).
    by apply elem_of_nil in Hin.
  - by rewrite (deContract_other t Hn).
Qed.

End Relating.

(** ** Examples *)

(** C1, as first stated, fails in its last part for a table with a rule
    labelled ROOT: two noun phrases, none of them a root, and the rule
    "<-"/ROOT without any constraint.  The right node, which was no root, is
    attached and receives the label ROOT from the rule, so a node labelled
    ROOT is in a child list of the result. *)
Lemma root_rule_puts_root_in_children :
  rootAbsorbed [theCat; spanRight] = false
  ∧ rootCount [theCat; spanRight] = 0
  ∧ relating plainConjugate [anyRule "<-" "ROOT"] 1 [theCat; spanRight] 1
    = Done [pushRight theCat (setLabel spanRight "ROOT")]
  ∧ rootAbsorbed [pushRight theCat (setLabel spanRight "ROOT")] = true.
Proof. repeat split; reflexivity. Qed.

Lemma root_never_absorbed_witness :
  Z.to_nat 3 ≤ 3
  ∧ Forall (λ r, Rel.label r ≠ "ROOT") [subjectRule]
  ∧ rootAbsorbed [theCat; sits] = false
  ∧ ∃ res, relating plainConjugate [subjectRule] 3 [theCat; sits] 3 = Done res
      ∧ topRoots res = topRoots (identifyRoot plainConjugate [theCat; sits])
      ∧ rootAbsorbed res = false.
Proof.
  assert (H1 : Z.to_nat 3 ≤ 3) by (simpl; lia).
  assert (H2 : Forall (λ r, Rel.label r ≠ "ROOT") [subjectRule])
    by (repeat constructor; discriminate).
  assert (H3 : rootAbsorbed [theCat; sits] = false) by reflexivity.
  repeat (split; [assumption|]).
  destruct (root_never_absorbed plainConjugate [subjectRule] 3 [theCat; sits] 3
              H1) as (_ & _ & res & Hr & Ht & Ha).
  exists res. split; [exact Hr|]. split; [exact Ht|exact (Ha H2 H3)].
Defined.

(** C3, as first stated, fails: in "they have it done" the candidate
    "have" is itself an auxiliary lemma and the node two positions ahead is
    a candidate verb, yet no [continue] is reached and "have" is marked,
    because the token that is conjugated is the one of the next node, "it".
    And the next node's token does not decide alone: in "do can go" the next
    token "can" is an auxiliary lemma and the node after it is a candidate
    verb, but the candidate starts at position 0, line 66 is not reached
    and "do" is marked. *)
Lemma own_token_is_not_consulted :
  (includes vbs (Node.type haveNode) = true
   ∧ includes_opt pa (firstTag haveNode) = true
   ∧ includes oe (canonical plainConjugate haveNode) = true
   ∧ includes vbs (Node.type doneNode) = true
   ∧ continueLine plainConjugate haveNode (Some itNode) (Some doneNode) None
     = None
   ∧ identifyRoot plainConjugate [theyNode; haveNode; itNode; doneNode]
     = [theyNode; setLabel haveNode "ROOT"; itNode; doneNode])
  ∧ (includes vbs (Node.type doFirst) = true
     ∧ includes_opt pa (firstTag doFirst) = true
     ∧ includes oe (canonical plainConjugate doFirst) = true
     ∧ includes oe (canonical plainConjugate canSecond) = true
     ∧ includes vbs (Node.type goThird) = true
     ∧ continueLine plainConjugate doFirst (Some canSecond) (Some goThird) None
       = None
     ∧ identifyRoot plainConjugate [doFirst; canSecond; goThird]
       = [setLabel doFirst "ROOT"; canSecond; goThird]).
Proof. repeat split; reflexivity. Qed.

Lemma continueLine_last_pattern_witness :
  continueLine plainConjugate doSecond (Some canThird) (Some goFourth) None
  = Some 66
  ∧ identifyRoot plainConjugate [dogsNode; doSecond; canThird; goFourth]
    = [dogsNode; doSecond; canThird; setLabel goFourth "ROOT"].
Proof.
  split; [|reflexivity].
  apply (continueLine_last_pattern plainConjugate doSecond (Some canThird)
           (Some goFourth) None).
  exists canThird, goFourth. repeat split; try reflexivity; discriminate.
Defined.

(** C4, as first stated, fails for an input in which a node carries ROOT
    already: the identifier reads no label, marks "sits", and two nodes
    carry ROOT afterwards. *)
Lemma prelabelled_input_gives_two_roots :
  identifyRoot plainConjugate [labelledCat; sits]
  = [labelledCat; setLabel sits "ROOT"]
  ∧ rootCount [labelledCat; sits] = 1
  ∧ rootCount (identifyRoot plainConjugate [labelledCat; sits]) = 2.
Proof. repeat split; reflexivity. Qed.

Lemma at_most_one_root_witness :
  rootCount [theCat; sits] = 0
  ∧ Forall (λ r, Rel.label r ≠ "ROOT") [subjectRule]
  ∧ Z.to_nat 3 ≤ 3
  ∧ rootCount (identifyRoot plainConjugate [theCat; sits]) ≤ 1
  ∧ ∃ res, relating plainConjugate [subjectRule] 3 [theCat; sits] 3 = Done res
      ∧ rootCount res = rootCount (identifyRoot plainConjugate [theCat; sits])
      ∧ topRoots res = topRoots (identifyRoot plainConjugate [theCat; sits]).
Proof.
  assert (H1 : rootCount [theCat; sits] = 0) by reflexivity.
  assert (H2 : Forall (λ r, Rel.label r ≠ "ROOT") [subjectRule])
    by (repeat constructor; discriminate).
  assert (H3 : Z.to_nat 3 ≤ 3) by (simpl; lia).
  repeat (split; [assumption|]).
  destruct (at_most_one_root plainConjugate [subjectRule] 3 [theCat; sits] 3
              H1 H2 H3) as (Ha & _ & Hb).
  split; [exact Ha|exact Hb].
Defined.

Lemma single_subject_witness :
  singleSubject [theCat; sits] = true
  ∧ Z.to_nat 3 ≤ 3
  ∧ ∃ res, relating plainConjugate [subjectRule] 3 [theCat; sits] 3 = Done res
      ∧ singleSubject res = true.
Proof.
  assert (H1 : singleSubject [theCat; sits] = true) by reflexivity.
  assert (H2 : Z.to_nat 3 ≤ 3) by (simpl; lia).
  repeat (split; [assumption|]).
  apply (single_subject plainConjugate [subjectRule] 3 [theCat; sits] 3 H1 H2).
Defined.

(** C6, as first stated, fails where the subtraction is rounded: the
    positions -2 and 2^53 - 1 and the distance 2^53 - 1 are doubles, the
    exact gap is 2^53 and exceeds the distance, but [2^53 - 1 - (-2)] is
    rounded to 2^53, the computed gap is 2^53 - 1, which does not exceed the
    distance, and the matcher answers with the rule. *)
Lemma rounded_gap_lets_rule_through :
  isDouble (fst (Node.index farRight)) = true
  ∧ isDouble (snd (Node.index farLeft)) = true
  ∧ isDouble (Rel.maxDistance wideRule) = true
  ∧ Rel.maxDistance wideRule ≠ (-1)%Z
  ∧ (fst (Node.index farRight) - snd (Node.index farLeft) - 1
       > Rel.maxDistance wideRule)%Z
  ∧ jsSub (fst (Node.index farRight)) (snd (Node.index farLeft))
    = 9007199254740992%Z
  ∧ jsSub 9007199254740992 1 = 9007199254740991%Z
  ∧ skips plainConjugate wideRule farLeft farRight 0 = false
  ∧ matchNodes plainConjugate [wideRule] farLeft farRight 0
    = Some (MatchResult.mk "<-" "DEP").
Proof. repeat split; vm_compute; congruence. Qed.

(** Scenario D: the gap between [0,1] and [3,4] is 1, more than 0. *)
Lemma maxDistance_rejects_witness :
  Rel.maxDistance adjacentRule ≠ (-1)%Z
  ∧ Rel.maxDistance adjacentRule = 0%Z
  ∧ Node.index spanLeft = (0, 1)%Z
  ∧ Node.index spanRight = (3, 4)%Z
  ∧ skips plainConjugate adjacentRule spanLeft spanRight 0 = true
  ∧ matchLoop plainConjugate [adjacentRule] spanLeft spanRight 0
    ≠ Some adjacentRule.
Proof.
  assert (H1 : Rel.maxDistance adjacentRule ≠ (-1)%Z) by discriminate.
  split; [exact H1|]. do 3 (split; [reflexivity|]).
  destruct (maxDistance_rejects plainConjugate [adjacentRule] adjacentRule
              spanLeft spanRight 0 H1
              (or_intror (or_intror (conj eq_refl (conj eq_refl eq_refl)))))
    as (Ha & _ & Hb).
  split; [exact Ha|exact Hb].
Defined.


Lemma degenerate_input_witness :
  (-1 ≤ 0)%Z
  ∧ relating plainConjugate [subjectRule] 0 [] 5 = Done []
  ∧ relating plainConjugate [subjectRule] 0 [theCat; sits] (-1)
    = Done (identifyRoot plainConjugate [theCat; sits]).
Proof.
  assert (H1 : (-1 ≤ 0)%Z) by lia.
  split; [assumption|].
  destruct (degenerate_input plainConjugate [subjectRule] 0 [theCat; sits] (-1)
              H1) as (Ha & _ & Hb & _).
  split; [exact (proj2 (Ha 0 5%Z))|exact Hb].
Defined.

Lemma last_candidate_is_root_witness :
  includes vbs (Node.type sits) = true
  ∧ Forall (λ n, Node.label n ≠ Some "ROOT")
      (take (length [theCat]) (identifyRoot plainConjugate ([theCat] ++ [sits])))
  ∧ identifyRoot plainConjugate ([theCat] ++ [sits])
    = [theCat] ++ [setLabel sits "ROOT"].
Proof.
  assert (H1 : includes vbs (Node.type sits) = true) by reflexivity.
  assert (H2 : Forall (λ n, Node.label n ≠ Some "ROOT")
                 (take (length [theCat])
                    (identifyRoot plainConjugate ([theCat] ++ [sits]))))
    by (repeat constructor; discriminate).
  repeat (split; [assumption|]).
  apply (last_candidate_is_root plainConjugate [theCat] sits H1 H2).
Defined.

(** ** Examples for the further properties *)

Lemma chunks_conserved_witness :
  Z.to_nat 3 ≤ 3
  ∧ ∃ res, relating plainConjugate [subjectRule] 3 [theCat; sits] 3 = Done res
      ∧ core <$> reachable res ≡ₚ core <$> reachable [theCat; sits]
      ∧ length (reachable res) = length (reachable [theCat; sits]).
Proof.
  assert (H1 : Z.to_nat 3 ≤ 3) by (simpl; lia).
  split; [exact H1|].
  apply (chunks_conserved plainConjugate [subjectRule] 3 [theCat; sits] 3 H1).
Defined.

Lemma survivors_keep_order_witness :
  Z.to_nat 3 ≤ 3
  ∧ ∃ res, relating plainConjugate [subjectRule] 3 [theCat; sits] 3 = Done res
      ∧ stem <$> res
        `sublist_of` stem <$> identifyRoot plainConjugate [theCat; sits].
Proof.
  assert (H1 : Z.to_nat 3 ≤ 3) by (simpl; lia).
  split; [exact H1|].
  apply (survivors_keep_order plainConjugate [subjectRule] 3 [theCat; sits] 3
           H1).
Defined.

Lemma top_level_roots_kept_witness :
  Z.to_nat 1 ≤ 1
  ∧ ∃ res,
      relating plainConjugate [anyRule "->" "ROOT"] 1 [theCat; sits] 1
      = Done res
      ∧ topRoots res = topRoots (identifyRoot plainConjugate [theCat; sits]).
Proof.
  assert (H1 : Z.to_nat 1 ≤ 1) by (simpl; lia).
  split; [exact H1|].
  apply (top_level_roots_kept plainConjugate [anyRule "->" "ROOT"] 1
           [theCat; sits] 1 H1).
Defined.

Lemma complete_parse_is_rooted_witness :
  topRoots (identifyRoot plainConjugate [theCat; sits]) ≠ []
  ∧ relating plainConjugate [subjectRule] 3 [theCat; sits] 3
    = Done [pushLeft (setLabel sits "ROOT") (setLabel theCat "NSUBJ")]
  ∧ Node.label (pushLeft (setLabel sits "ROOT") (setLabel theCat "NSUBJ"))
    = Some "ROOT".
Proof.
  assert (H1 : topRoots (identifyRoot plainConjugate [theCat; sits]) ≠ [])
    by discriminate.
  assert (H2 : relating plainConjugate [subjectRule] 3 [theCat; sits] 3
               = Done [pushLeft (setLabel sits "ROOT")
                                (setLabel theCat "NSUBJ")])
    by reflexivity.
  split; [exact H1|]. split; [exact H2|].
  apply (complete_parse_is_rooted plainConjugate [subjectRule] 3
           [theCat; sits] 3 _ H1 H2).
Defined.

Lemma result_shrinks_witness :
  Z.to_nat 3 ≤ 3
  ∧ ∃ res, relating plainConjugate [subjectRule] 3 [theCat; sits] 3 = Done res
      ∧ length res ≤ length [theCat; sits]
      ∧ ([theCat; sits] ≠ [] → res ≠ []).
Proof.
  assert (H1 : Z.to_nat 3 ≤ 3) by (simpl; lia).
  split; [exact H1|].
  apply (result_shrinks plainConjugate [subjectRule] 3 [theCat; sits] 3 H1).
Defined.


Lemma no_direction_no_change_witness :
  Forall (λ r, Rel.direction r ≠ "<-" ∧ Rel.direction r ≠ "->")
         [anyRule "<>" "DEP"]
  ∧ Z.to_nat 2 ≤ 2
  ∧ relating plainConjugate [anyRule "<>" "DEP"] 2 [theCat; sits] 2
    = Done (identifyRoot plainConjugate [theCat; sits]).
Proof.
  assert (H1 : Forall (λ r, Rel.direction r ≠ "<-" ∧ Rel.direction r ≠ "->")
                 [anyRule "<>" "DEP"])
    by (repeat constructor; discriminate).
  assert (H2 : Z.to_nat 2 ≤ 2) by (simpl; lia).
  split; [exact H1|]. split; [exact H2|].
  apply (no_direction_no_change plainConjugate [anyRule "<>" "DEP"] 2
           [theCat; sits] 2 H1 H2).
Defined.


Lemma children_carry_rule_labels_witness :
  childrenLabelled (Rel.label <$> [subjectRule]) [theCat; sits] = true
  ∧ Z.to_nat 3 ≤ 3
  ∧ ∃ res, relating plainConjugate [subjectRule] 3 [theCat; sits] 3 = Done res
      ∧ childrenLabelled (Rel.label <$> [subjectRule]) res = true.
Proof.
  assert (H1 : childrenLabelled (Rel.label <$> [subjectRule]) [theCat; sits]
               = true) by reflexivity.
  assert (H2 : Z.to_nat 3 ≤ 3) by (simpl; lia).
  split; [exact H1|]. split; [exact H2|].
  apply (children_carry_rule_labels plainConjugate [subjectRule] 3
           [theCat; sits] 3 H1 H2).
Defined.

Lemma match_persists_witness :
  (0 ≤ 4)%Z
  ∧ is_Some (matchNodes plainConjugate [subjectRule] theCat sits 0)
  ∧ is_Some (matchNodes plainConjugate [subjectRule] theCat sits 4).
Proof.
  assert (H1 : (0 ≤ 4)%Z) by lia.
  assert (H2 : is_Some (matchNodes plainConjugate [subjectRule] theCat sits 0))
    by (eexists; reflexivity).
  split; [exact H1|]. split; [exact H2|].
  apply (match_persists plainConjugate [subjectRule] theCat sits 0 4 H1 H2).
Defined.

Lemma pair_absorption_witness :
  (1 ≤ 2)%Z
  ∧ 1 ≤ 1
  ∧ matchNodes plainConjugate [subjectRule] theCat sits 0
    = Some (MatchResult.mk "->" "NSUBJ")
  ∧ buildRelationships plainConjugate [subjectRule] 1 [theCat; sits] 2
    = Done [pushLeft sits (setLabel theCat "NSUBJ")].
Proof.
  assert (H1 : (1 ≤ 2)%Z) by lia.
  assert (H2 : 1 ≤ 1) by lia.
  assert (H3 : matchNodes plainConjugate [subjectRule] theCat sits 0
               = Some (MatchResult.mk "->" "NSUBJ")) by reflexivity.
  split; [exact H1|]. split; [exact H2|]. split; [exact H3|].
  apply (proj2 (pair_absorption plainConjugate [subjectRule] 1 theCat sits 2
                  (MatchResult.mk "->" "NSUBJ") H1 H2 H3)).
  reflexivity.
Defined.

Lemma only_candidates_are_marked_witness :
  [theCat; sits] !! 0 = Some theCat
  ∧ includes vbs (Node.type theCat) = false
  ∧ identifyRoot plainConjugate [theCat; sits] !! 0 = Some theCat.
Proof.
  assert (H1 : [theCat; sits] !! 0 = Some theCat) by reflexivity.
  assert (H2 : includes vbs (Node.type theCat) = false) by reflexivity.
  split; [exact H1|]. split; [exact H2|].
  apply (only_candidates_are_marked plainConjugate [theCat; sits] 0 theCat
           H1 H2).
Defined.

Lemma first_candidate_with_plain_tag_witness :
  Forall (λ m, includes vbs (Node.type m) = false) [theCat]
  ∧ includes vbs (Node.type (chunk "VP" "VBG" "sitting" 2 2)) = true
  ∧ includes_opt pa (firstTag (chunk "VP" "VBG" "sitting" 2 2)) = false
  ∧ identifyRoot plainConjugate
      ([theCat] ++ chunk "VP" "VBG" "sitting" 2 2 :: [goFourth])
    = [theCat] ++ setLabel (chunk "VP" "VBG" "sitting" 2 2) "ROOT"
                   :: [goFourth].
Proof.
  assert (H1 : Forall (λ m, includes vbs (Node.type m) = false) [theCat])
    by (repeat constructor).
  assert (H2 : includes vbs (Node.type (chunk "VP" "VBG" "sitting" 2 2))
               = true) by reflexivity.
  assert (H3 : includes_opt pa (firstTag (chunk "VP" "VBG" "sitting" 2 2))
               = false) by reflexivity.
  split; [exact H1|]. split; [exact H2|]. split; [exact H3|].
  apply (first_candidate_with_plain_tag plainConjugate [theCat]
           (chunk "VP" "VBG" "sitting" 2 2) [goFourth] H1 H2 H3).
Defined.
